(** * Content-based image retrieval with a vocabulary tree

    A shallow embedding of [src/cbir.py] (class [CBIR]): the recursive
    construction of the vocabulary tree ([fit]), the propagation of the
    features of an image down the tree ([propagate], [propagate_feature]),
    the inverted index and its weights ([index]), the encoding of an image
    ([encode]) and the scoring used for retrieval ([score], [retrieve]).

    Conventions of the embedding.
    - Python integers that count things are [nat].
    - Floating point values are modelled exactly: a finite float is a
      rational ([Q]), the special values [inf], [-inf] and [nan] are kept
      as constructors, so that a division by a zero norm is visible.
    - [np.linalg.norm] and [np.log] do not stay inside the rationals; their
      results are kept as the symbolic values [Sqrt q] and [Log q], with
      their meaning in the reals given by [norm_R] and [weight_R].
    - The object [self] is threaded through a state and exception monad:
      an exception leaves the mutations done so far in place, as in Python. *)

From Stdlib Require Import QArith Qabs Reals Qreals Lra Lia.
From Stdlib Require Lqa.
From Stdlib Require Import Sorted.
From stdpp Require Import gmap strings list fin_maps.

Set Default Proof Using "Type".

(** ** Floating point values *)

Inductive npfloat := Fin (q : Q) | PInf | NInf | NaN.

(** Two floats denote the same value. *)
Definition feq (a b : npfloat) : Prop :=
  match a, b with
  | Fin x, Fin y => (x == y)%Q
  | PInf, PInf | NInf, NInf | NaN, NaN => True
  | _, _ => False
  end.

Definition fsign (a : npfloat) : Z :=
  match a with
  | Fin q => Z.sgn (Qnum q)
  | PInf => 1
  | NInf => -1
  | NaN => 0
  end.

Definition inf_of_sign (s : Z) : npfloat :=
  match s with
  | Z0 => NaN
  | Zpos _ => PInf
  | Zneg _ => NInf
  end.

Definition fneg (a : npfloat) : npfloat :=
  match a with
  | Fin q => Fin (- q)
  | PInf => NInf
  | NInf => PInf
  | NaN => NaN
  end.

Definition fadd (a b : npfloat) : npfloat :=
  match a, b with
  | NaN, _ | _, NaN => NaN
  | Fin x, Fin y => Fin (x + y)
  | PInf, NInf | NInf, PInf => NaN
  | PInf, _ | _, PInf => PInf
  | NInf, _ | _, NInf => NInf
  end.

Definition fsub (a b : npfloat) : npfloat := fadd a (fneg b).

Definition fmul (a b : npfloat) : npfloat :=
  match a, b with
  | NaN, _ | _, NaN => NaN
  | Fin x, Fin y => Fin (x * y)
  | _, _ => inf_of_sign (fsign a * fsign b)
  end.

(** Division as numpy does it: [x / 0.0] is [nan] for [x = 0] and an
    infinity otherwise (a warning is printed, nothing is raised). *)
Definition fdiv (a b : npfloat) : npfloat :=
  match a, b with
  | NaN, _ | _, NaN => NaN
  | Fin x, Fin y =>
      if Qeq_bool y 0 then inf_of_sign (fsign a) else Fin (x / y)
  | Fin _, _ => Fin 0
  | _, Fin y => inf_of_sign (fsign a * (if (Qnum y <? 0)%Z then -1 else 1))
  | _, _ => NaN
  end.

(** [np.sum] of a one-dimensional array. *)
Definition np_sum (v : list npfloat) : npfloat := foldr fadd (Fin 0) v.

(** [np.linalg.norm(v, ord=1)] of an array of finite values. *)
Definition norm_l1 (v : list Q) : Q := foldr (fun x acc => Qabs x + acc)%Q 0%Q v.

(** The result of [np.linalg.norm] (Frobenius norm) and [float("inf")]. *)
Inductive norm := Sqrt (q : Q) | NormInf | NormNaN.

(** [a < b] on norms; the radicands are sums of squares. *)
Definition norm_ltb (a b : norm) : bool :=
  match a, b with
  | Sqrt x, Sqrt y => match (x ?= y)%Q with Lt => true | _ => false end
  | Sqrt _, NormInf => true
  | _, _ => false
  end.

Definition norm_R (a : norm) : option R :=
  match a with
  | Sqrt q => Some (sqrt (Q2R q))
  | _ => None
  end.

(** [np.log(q)], kept symbolic; [weight_R] is its value for a positive [q]
    ([np.log(0)] is [-inf]). *)
Inductive weight := Log (q : Q).

Definition weight_R (x : weight) : R := match x with Log q => ln (Q2R q) end.

(** ** Arrays *)

Definition feature := list Q.

(** The value stored for a node in [self.nodes]: the scalar mean of all
    training values for the root, a cluster centre for every other node. *)
Inductive ndarray := Scalar (x : npfloat) | Array (v : list Q).

Definition Qsum (v : list Q) : Q := foldr Qplus 0%Q v.

(** [np.mean(features)] over all the entries of a two-dimensional array. *)
Definition np_mean (features : list feature) : npfloat :=
  let xs := concat features in
  fdiv (Fin (Qsum xs)) (Fin (inject_Z (Z.of_nat (length xs)))).

Definition sum_squares (v : list Q) : Q := foldr (fun x acc => x * x + acc)%Q 0%Q v.

(** [centre - feature] with numpy's broadcasting of one-dimensional
    arrays: equal lengths, or one of the two of length one; anything else
    raises [ValueError] ([None]). *)
Definition broadcast_sub (v f : list Q) : option (list Q) :=
  if (length v =? length f)%nat then Some (zip_with Qminus v f)
  else match v, f with
       | [x], _ => Some (map (fun y => x - y)%Q f)
       | _, [y] => Some (map (fun x => x - y)%Q v)
       | _, _ => None
       end.

(** ** Exceptions and outcomes *)

Inductive exn := KeyError | IndexError | ValueError | NetworkXError.

(** [Diverge]: the loop or recursion did not finish within its fuel. *)
Inductive outcome (A : Type) := Ret (a : A) | Raise (e : exn) | Diverge.
Arguments Ret {A} a.
Arguments Raise {A} e.
Arguments Diverge {A}.

Definition of_option {A} (e : exn) (o : option A) : outcome A :=
  match o with Some a => Ret a | None => Raise e end.

(** [np.linalg.norm([nodes[child] - feature])]: the Frobenius norm of the
    difference, the square root of the sum of the squared entries. *)
Definition distance (centre : ndarray) (feature : feature) : outcome norm :=
  match centre with
  | Array v =>
      match broadcast_sub v feature with
      | Some d => Ret (Sqrt (sum_squares d))
      | None => Raise ValueError
      end
  | Scalar (Fin x) => Ret (Sqrt (sum_squares (map (fun y => x - y)%Q feature)))
  | Scalar NaN => Ret (match feature with [] => Sqrt 0 | _ => NormNaN end)
  | Scalar _ => Ret (match feature with [] => Sqrt 0 | _ => NormInf end)
  end.

(** ** The dataset *)

Module Dataset.

(** Modelled from the spec: the class [Dataset] that [cbir.py] imports
    from [dataset.py], which is not among the sources. The spec calls it
    the FeatureProvider: [AllImages] is the ordered sequence of image
    references, [ExtractFeatures] gives the (possibly empty) sequence of
    feature vectors of an image and [GetImageId] its stable identifier.
    Image references and identifiers are strings. *)
Record t := {
  all_images : list string;
  extract_features : string -> list feature;
  get_image_id : string -> string
}.

(** Modelled from the spec: [len(dataset)], the total number of images
    in the corpus. *)
Definition len (d : t) : nat := length (all_images d).

End Dataset.

(** ** The graph *)

Module nx.

(** The attribute dictionary of a node. [cbir.py] keeps in it the visit
    counter of every image under the image identifier, and the weight of
    the node under the key ["w"]. Image identifiers are taken to differ
    from ["w"], so the dictionary splits into the two fields; its length
    counts the keys of both. *)
Record attrs := { visits : gmap string nat; w : option weight }.

Definition no_attrs : attrs := {| visits := ∅; w := None |}.

Definition attrs_len (a : attrs) : nat :=
  (size (visits a) + (match w a with Some _ => 1 | None => 0 end))%nat.

(** [networkx.DiGraph]: the node dictionary (with its insertion order)
    and the successor dictionary, whose inner dictionaries are kept as
    the list of their keys in insertion order. *)
Record DiGraph := {
  node_order : list nat;
  node : gmap nat attrs;
  succ : gmap nat (list nat)
}.

Definition empty : DiGraph := {| node_order := []; node := ∅; succ := ∅ |}.

Definition add_node (n : nat) (g : DiGraph) : DiGraph :=
  match succ g !! n with
  | Some _ => g
  | None => {| node_order := node_order g ++ [n];
               node := <[n := no_attrs]> (node g);
               succ := <[n := []]> (succ g) |}
  end.

Definition add_edge (u v : nat) (g : DiGraph) : DiGraph :=
  let g := add_node v (add_node u g) in
  {| node_order := node_order g;
     node := node g;
     succ := alter (fun vs => if bool_decide (v ∈ vs) then vs else vs ++ [v]) u (succ g) |}.

(** [G.out_degree(n)]; a node that is not in the graph raises. *)
Definition out_degree (g : DiGraph) (n : nat) : outcome nat :=
  of_option NetworkXError (length <$> succ g !! n).

(** [G[n]], iterated: the successors in insertion order. *)
Definition successors (g : DiGraph) (n : nat) : outcome (list nat) :=
  of_option KeyError (succ g !! n).

(** [G.nodes(data=True)], iterated. *)
Definition nodes_data (g : DiGraph) : list (nat * attrs) :=
  omap (fun n => pair n <$> node g !! n) (node_order g).

Definition set_node (f : gmap nat attrs -> gmap nat attrs) (g : DiGraph) : DiGraph :=
  {| node_order := node_order g; node := f (node g); succ := succ g |}.

End nx.

(** ** The object *)

Record CBIR := {
  dataset : Dataset.t;
  n_branches : nat;
  depth : nat;
  tree : gmap nat (list nat);
  nodes : gmap nat ndarray;
  _current_index : nat;
  graph : nx.DiGraph;
  (** ghost: the arguments [(node, features, current_depth)] of every
      invocation of [fit], in the order of the invocations; no operation
      reads it *)
  fit_log : list (nat * list feature * nat)
}.

(** [CBIR.__init__] with [initialise=False]. *)
Definition init (d : Dataset.t) (n_branches depth : nat) : CBIR :=
  {| dataset := d; n_branches := n_branches; depth := depth;
     tree := ∅; nodes := ∅; _current_index := 0; graph := nx.empty;
     fit_log := [] |}.

Definition set_tree (f : gmap nat (list nat) -> gmap nat (list nat)) (s : CBIR) : CBIR :=
  {| dataset := dataset s; n_branches := n_branches s; depth := depth s;
     tree := f (tree s); nodes := nodes s; _current_index := _current_index s;
     graph := graph s; fit_log := fit_log s |}.

Definition set_nodes (f : gmap nat ndarray -> gmap nat ndarray) (s : CBIR) : CBIR :=
  {| dataset := dataset s; n_branches := n_branches s; depth := depth s;
     tree := tree s; nodes := f (nodes s); _current_index := _current_index s;
     graph := graph s; fit_log := fit_log s |}.

Definition set_current_index (f : nat -> nat) (s : CBIR) : CBIR :=
  {| dataset := dataset s; n_branches := n_branches s; depth := depth s;
     tree := tree s; nodes := nodes s; _current_index := f (_current_index s);
     graph := graph s; fit_log := fit_log s |}.

Definition set_graph (f : nx.DiGraph -> nx.DiGraph) (s : CBIR) : CBIR :=
  {| dataset := dataset s; n_branches := n_branches s; depth := depth s;
     tree := tree s; nodes := nodes s; _current_index := _current_index s;
     graph := f (graph s); fit_log := fit_log s |}.

Definition set_fit_log (f : list (nat * list feature * nat) -> list (nat * list feature * nat))
    (s : CBIR) : CBIR :=
  {| dataset := dataset s; n_branches := n_branches s; depth := depth s;
     tree := tree s; nodes := nodes s; _current_index := _current_index s;
     graph := graph s; fit_log := f (fit_log s) |}.

(** ** The state and exception monad *)

#[global] Instance outcome_ret : MRet outcome := fun A a => Ret a.
#[global] Instance outcome_bind : MBind outcome := fun A B f m =>
  match m with
  | Ret a => f a
  | Raise e => Raise e
  | Diverge => Diverge
  end.
#[global] Instance outcome_fmap : FMap outcome := fun A B f m =>
  match m with
  | Ret a => Ret (f a)
  | Raise e => Raise e
  | Diverge => Diverge
  end.

Definition M (A : Type) : Type := CBIR -> outcome A * CBIR.

#[global] Instance M_ret : MRet M := fun A a s => (Ret a, s).
#[global] Instance M_bind : MBind M := fun A B f m s =>
  match m s with
  | (Ret a, s') => f a s'
  | (Raise e, s') => (Raise e, s')
  | (Diverge, s') => (Diverge, s')
  end.

Definition get : M CBIR := fun s => (Ret s, s).
Definition modify (f : CBIR -> CBIR) : M unit := fun s => (Ret tt, f s).
Definition lift {A} (o : outcome A) : M A := fun s => (o, s).

(** A [for] loop whose body mutates [self]. *)
Fixpoint for_ {A} (l : list A) (body : A -> M unit) : M unit :=
  match l with
  | [] => mret tt
  | x :: l => body x;; for_ l body
  end.

(** ** [CBIR.extract_features] *)

Definition extract_features (image : option string) (self : CBIR) : list feature :=
  match image with
  | Some image => Dataset.extract_features (dataset self) image
  | None =>
      foldl (fun features path => features ++ Dataset.extract_features (dataset self) path)
        [] (Dataset.all_images (dataset self))
  end.

(** ** [CBIR.fit] *)

(** [children[model.labels_[i]].append(features[i])] for every [i]. *)
Fixpoint group (features : list feature) (labels : list nat)
    (children : list (list feature)) : outcome (list (list feature)) :=
  match features with
  | [] => Ret children
  | f :: features =>
      match labels with
      | [] => Raise IndexError
      | l :: labels =>
          match children !! l with
          | None => Raise IndexError
          | Some c => group features labels (<[l := c ++ [f]]> children)
          end
      end
  end.

(** [self.tree[node].append(i)] *)
Definition tree_append (node i : nat) : M unit :=
  self ← get;
  match tree self !! node with
  | Some l => modify (set_tree <[node := l ++ [i]]>)
  | None => lift (Raise KeyError)
  end.

Section fit.

(** [MiniBatchKMeans(n_clusters=k).fit(features)]: the external clustering
    primitive, giving [labels_] and [cluster_centers_]. *)
Variable kmeans : nat -> list feature -> list nat * list (list Q).

(** The body of the loop over the clusters, for cluster [i]; [fit] is the
    recursive call. *)
Definition fit_child (fit : option (list feature) -> nat -> option ndarray -> nat -> M unit)
    (node current_depth : nat) (children : list (list feature))
    (cluster_centers : list (list Q)) (i : nat) : M unit :=
  modify (set_current_index S);;
  self ← get;
  tree_append node (_current_index self);;
  modify (set_graph (nx.add_edge node (_current_index self)));;
  child_features ← lift (of_option IndexError (children !! i));
  centre ← lift (of_option IndexError (cluster_centers !! i));
  fit (Some child_features) (_current_index self) (Some (Array centre)) (S current_depth).

(** The leaf test of [fit]. *)
Definition is_leaf_call (self : CBIR) (n_features current_depth : nat) : bool :=
  (depth self <=? current_depth)%nat || (n_features <? n_branches self)%nat.

Fixpoint fit_rec (fuel : nat) (features : option (list feature)) (node : nat)
    (root : option ndarray) (current_depth : nat) : M unit :=
  match fuel with
  | O => lift Diverge
  | S fuel =>
      self ← get;
      let features :=
        match features with Some f => f | None => extract_features None self end in
      let root :=
        match root with Some r => r | None => Scalar (np_mean features) end in
      modify (set_nodes <[node := root]>);;
      modify (set_graph (nx.add_node node));;
      modify (set_fit_log (fun l => l ++ [(node, features, current_depth)]));;
      if is_leaf_call self (length features) current_depth
      then mret tt
      else
        let model := kmeans (n_branches self) features in
        children ← lift (group features model.1 (replicate (n_branches self) []));
        modify (set_tree <[node := []]>);;
        for_ (seq 0 (n_branches self))
          (fit_child (fit_rec fuel) node current_depth children model.2)
  end.

(** [self.fit()]; the recursion is at most [depth + 1] calls deep. *)
Definition fit : M unit :=
  self ← get;
  fit_rec (S (depth self)) None 0 None 0.

End fit.

(** ** [CBIR.propagate_feature] *)

(** The [for child in self.graph[node]] loop: its state is [min_dist],
    [node] and [path]. *)
Fixpoint scan (self : CBIR) (feature : feature) (children : list nat)
    (min_dist : norm) (node : nat) (path : list nat) : outcome (norm * nat * list nat) :=
  match children with
  | [] => Ret (min_dist, node, path)
  | child :: children =>
      centre ← of_option KeyError (nodes self !! child);
      distance ← distance centre feature;
      if norm_ltb distance min_dist
      then scan self feature children distance child (path ++ [child])
      else scan self feature children min_dist node (path ++ [child])
  end.

(** The [while self.graph.out_degree(node)] loop: its state is [node] and
    [path]. *)
Fixpoint descend (fuel : nat) (self : CBIR) (feature : feature)
    (node : nat) (path : list nat) : outcome (nat * list nat) :=
  match fuel with
  | O => Diverge
  | S fuel =>
      d ← nx.out_degree (graph self) node;
      match d with
      | O => Ret (node, path)
      | S _ =>
          children ← nx.successors (graph self) node;
          '(_, node, path) ← scan self feature children NormInf node path;
          descend fuel self feature node path
      end
  end.

(** The loop is deterministic in [node]: if it has not stopped after as
    many tests as the graph has nodes, it never stops. *)
Definition propagate_feature (self : CBIR) (feature : feature) (node : nat) : outcome (list nat) :=
  snd <$> descend (S (length (nx.node_order (graph self)))) self feature node [node].

(** ** [CBIR.propagate] *)

(** The body of the inner loop: create the counter of the image at the
    node with value 1, or increment it. *)
Definition visit (node : nat) (image_id : string) : M unit :=
  self ← get;
  match nx.node (graph self) !! node with
  | None => lift (Raise KeyError)
  | Some files =>
      let count :=
        match nx.visits files !! image_id with
        | None => 1%nat
        | Some c => S c
        end in
      modify (set_graph (nx.set_node
        <[node := {| nx.visits := <[image_id := count]> (nx.visits files);
                     nx.w := nx.w files |}]>))
  end.

Definition propagate (image_path : string) : M unit :=
  self ← get;
  let features := extract_features (Some image_path) self in
  let image_id := Dataset.get_image_id (dataset self) image_path in
  for_ features (fun feature =>
    self ← get;
    path ← lift (propagate_feature self feature 0);
    for_ path (fun node => visit node image_id)).

(** ** [CBIR.index] *)

(** [self.graph.nodes[node_id]["w"] = x] *)
Definition set_weight (node_id : nat) (x : weight) : M unit :=
  self ← get;
  match nx.node (graph self) !! node_id with
  | None => lift (Raise KeyError)
  | Some files =>
      modify (set_graph (nx.set_node
        <[node_id := {| nx.visits := nx.visits files; nx.w := Some x |}]>))
  end.

Definition Q_of_nat (n : nat) : Q := inject_Z (Z.of_nat n).

(** The body of the loop over [self.graph.nodes(data=True)]: [files] is
    the attribute dictionary of the node, [N_i] its length; a node with an
    empty dictionary is left as it is. *)
Definition weigh_node (N : nat) (node_id : nat) : M unit :=
  self ← get;
  match nx.node (graph self) !! node_id with
  | None => mret tt
  | Some files =>
      let N_i := nx.attrs_len files in
      match N_i with
      | O => mret tt
      | S _ => set_weight node_id (Log (Q_of_nat N / Q_of_nat N_i))
      end
  end.

(** With [parallel], the calls of [propagate] are handed to the processes
    of a [multiprocessing.Pool] and their results are never collected: each
    worker mutates its own copy of [self], and the object of the caller is
    left as it was. *)
Definition index (parallel : bool) : M unit :=
  self ← get;
  for_ (Dataset.all_images (dataset self)) (fun image_path =>
    if parallel then mret tt else propagate image_path);;
  self ← get;
  let N := Dataset.len (dataset self) in
  for_ (nx.node_order (graph self)) (weigh_node N).

(** ** [CBIR.encode] *)

Inductive encoded := Subgraph (ns : list nat) | Vector (v : list npfloat).

(** [self.graph.nodes(data=image_id, default=0)], second column. *)
Definition tfidf (self : CBIR) (image_id : string) : list nat :=
  map (fun '(_, files) => default 0%nat (nx.visits files !! image_id))
    (nx.nodes_data (graph self)).

(** With [return_graph] the nodes that carry the image are returned (and
    drawn, which is not modelled). Otherwise the counters of the image over
    all nodes are divided by their l1 norm; indexing the second column of
    the array of an empty graph raises. The array [weights] is computed and
    not used. *)
Definition encode (self : CBIR) (image_id : string) (return_graph : bool) : outcome encoded :=
  if return_graph then
    Ret (Subgraph (omap (fun '(k, files) =>
                           match nx.visits files !! image_id with
                           | Some _ => Some k
                           | None => None
                           end) (nx.nodes_data (graph self))))
  else
    let tfidf := map Q_of_nat (tfidf self image_id) in
    match tfidf with
    | [] => Raise IndexError
    | _ => Ret (Vector (map (fun x => fdiv (Fin x) (Fin (norm_l1 tfidf))) tfidf))
    end.

Definition encode_vector (self : CBIR) (image_id : string) : outcome (list npfloat) :=
  e ← encode self image_id false;
  match e with
  | Vector v => Ret v
  | Subgraph _ => Raise ValueError
  end.

(** ** [CBIR.score] *)

(** [2 - 2 * np.sum(d * q)] *)
Definition score_vectors (d q : list npfloat) : npfloat :=
  fsub (Fin 2) (fmul (Fin 2) (np_sum (zip_with fmul d q))).

Definition score (self : CBIR) (first_image_path second_image_path : string) : outcome npfloat :=
  let db_id := Dataset.get_image_id (dataset self) first_image_path in
  let query_id := Dataset.get_image_id (dataset self) second_image_path in
  d ← encode_vector self db_id;
  q ← encode_vector self query_id;
  Ret (score_vectors d q).

(** ** [CBIR.retrieve] *)

(** [a < b] on floats; every comparison with [nan] is false. *)
Definition fltb (a b : npfloat) : bool :=
  match a, b with
  | NaN, _ | _, NaN => false
  | Fin x, Fin y => match (x ?= y)%Q with Lt => true | _ => false end
  | NInf, NInf | PInf, _ | _, NInf => false
  | _, _ => true
  end.

(** [scores[k] = v] on a dictionary kept as the list of its items. *)
Fixpoint dict_set (k : string) (v : npfloat) (d : list (string * npfloat)) : list (string * npfloat) :=
  match d with
  | [] => [(k, v)]
  | (k', v') :: d => if String.eqb k k' then (k, v) :: d else (k', v') :: dict_set k v d
  end.

Fixpoint insert_sorted (x : string * npfloat) (l : list (string * npfloat)) : list (string * npfloat) :=
  match l with
  | [] => [x]
  | y :: l => if fltb x.2 y.2 then x :: y :: l else y :: insert_sorted x l
  end.

(** [sorted(scores.items(), key=lambda item: item[1])]: a stable sort, here
    by insertion. *)
Definition sorted_by_score (d : list (string * npfloat)) : list (string * npfloat) :=
  foldl (fun acc x => insert_sorted x acc) [] d.

Fixpoint all_scores (self : CBIR) (query_image_path : string) (images : list string)
    (scores : list (string * npfloat)) : outcome (list (string * npfloat)) :=
  match images with
  | [] => Ret scores
  | database_image_path :: images =>
      let db_id := Dataset.get_image_id (dataset self) database_image_path in
      s ← score self database_image_path query_image_path;
      all_scores self query_image_path images (dict_set db_id s scores)
  end.

(** [self.retrieve(query_image_path)]; the parameter [n] of the method is not
    used by its body. *)
Definition retrieve (query_image_path : string) : M (list (string * npfloat)) :=
  propagate query_image_path;;
  self ← get;
  scores ← lift (all_scores self query_image_path (Dataset.all_images (dataset self)) []);
  mret (sorted_by_score scores).


(** * Specification vocabulary *)

(** An invariant of the object that holds whatever the outcome. *)
Definition preserves {A} (I : CBIR -> Prop) (m : M A) : Prop :=
  forall s, I s -> I (m s).2.

(** Everything of the object but the attribute dictionaries of the nodes,
    of which only the set of nodes that have one is kept. *)
Definition skeleton (s : CBIR) :=
  (dataset s, n_branches s, depth s, tree s, nodes s, _current_index s,
   nx.node_order (graph s), nx.succ (graph s), dom (nx.node (graph s)), fit_log s).

(** The total number of visits recorded for an image over all nodes. *)
Definition total_visits (s : CBIR) (image_id : string) : nat :=
  sum_list (tfidf s image_id).

(** The Euclidean distance between two vectors of the same length, in the
    reals. *)
Definition euclidean (v f : list Q) : R :=
  sqrt (foldr (fun '(x, y) acc => (Q2R x - Q2R y) * (Q2R x - Q2R y) + acc)%R 0%R (zip v f)).

(** * A small corpus

    Three one-dimensional descriptors over two images, a branching factor
    of two and two levels; the clustering primitive splits one-dimensional
    points at their mean and returns the means of the two groups. *)

Module demo.

Definition mean (xs : list Q) : Q := Qred (Qsum xs / Q_of_nat (length xs)).

Definition kmeans (k : nat) (features : list feature) : list nat * list (list Q) :=
  let xs := map (fun f => hd 0%Q f) features in
  let label := fun x => if Qle_bool x (mean xs) then 0%nat else 1%nat in
  (map label xs,
   [[mean (filter (fun x => label x = 0%nat) xs)];
    [mean (filter (fun x => label x = 1%nat) xs)]]).

Definition corpus : Dataset.t :=
  {| Dataset.all_images := ["a.jpg"; "b.jpg"];
     Dataset.extract_features := fun path =>
       if String.eqb path "a.jpg" then [[0%Q]; [10%Q]]
       else if String.eqb path "b.jpg" then [[11%Q]]
       else [];
     Dataset.get_image_id := fun path => path |}.

(** [CBIR(root, 2, 2)] followed by [fit()]. *)
Definition after_fit : CBIR := (fit kmeans (init corpus 2 2)).2.

(** ... followed by [index(parallel=False)]. *)
Definition after_index : CBIR := (index false after_fit).2.

(** ... followed by a second [index(parallel=False)]. *)
Definition after_second_index : CBIR := (index false after_index).2.

End demo.

(** The squared distance between a feature and the centre of a node. *)
Definition sqdist (self : CBIR) (feature : feature) (child : nat) : Q :=
  match nodes self !! child with
  | Some (Array v) => sum_squares (zip_with Qminus v feature)
  | _ => 0%Q
  end.

(** The centre of every node of the list is an array of the length of the
    feature. *)
Definition centres_match (self : CBIR) (feature : feature) (children : list nat) : Prop :=
  forall child, child ∈ children ->
    exists v, nodes self !! child = Some (Array v) /\ length v = length feature.

(** ** The tree that [fit] builds *)

(** The contract of the clustering primitive for [k] clusters, on features
    that satisfy [P] (a dimension, or nothing): one label below [k] for
    every feature, and [k] centres that satisfy [P]. *)
Definition kmeans_ok (kmeans : nat -> list feature -> list nat * list (list Q))
    (k : nat) (P : feature -> Prop) : Prop :=
  forall fs, (k <= length fs)%nat -> Forall P fs ->
    length (kmeans k fs).1 = length fs /\
    Forall (fun l => l < k)%nat (kmeans k fs).1 /\
    length (kmeans k fs).2 = k /\
    Forall P (kmeans k fs).2.

Definition has_dim (dim : nat) (f : feature) : Prop := length f = dim.

(** What the object holds about node [n]. *)
Definition view (s : CBIR) (n : nat) :=
  (nx.succ (graph s) !! n, nx.node (graph s) !! n, nodes s !! n, tree s !! n).

Definition static (s : CBIR) := (dataset s, n_branches s, depth s).

Definition fresh_above (s : CBIR) (c : nat) : Prop :=
  forall n, (c < n)%nat ->
    nx.succ (graph s) !! n = None /\ nx.node (graph s) !! n = None.

(** The children of a node: created after it, each with an array as its
    centre and each the node of an invocation one level below. *)
Definition children_ok (P : feature -> Prop) (s : CBIR) (n d : nat) (cs : list nat) : Prop :=
  NoDup cs /\
  forall x, x ∈ cs ->
    (n < x <= _current_index s)%nat /\
    (exists v, nodes s !! x = Some (Array v) /\ P v) /\
    (exists fs, (x, fs, S d) ∈ fit_log s).

(** The features of a node are routed to its children by the clustering:
    the i-th child is entered with the features of label [i]. *)
Definition routed (kmeans : nat -> list feature -> list nat * list (list Q))
    (s : CBIR) (fs : list feature) (d : nat) (cs : list nat) : Prop :=
  exists children,
    group fs (kmeans (n_branches s) fs).1 (replicate (n_branches s) []) = Ret children /\
    Forall2 (fun x child_features => (x, child_features, S d) ∈ fit_log s) cs children.

(** An invocation [(node, features, current_depth)] of [fit] and the node
    it left in the graph: no child when the leaf test held, [n_branches]
    children that share its features otherwise. *)
Definition call_ok (kmeans : nat -> list feature -> list nat * list (list Q))
    (P : feature -> Prop) (s : CBIR) (e : nat * list feature * nat) : Prop :=
  let '(n, fs, d) := e in
  (d <= depth s)%nat /\
  is_Some (nx.node (graph s) !! n) /\
  exists cs, nx.succ (graph s) !! n = Some cs /\
    (if is_leaf_call s (length fs) d then cs = []
     else length cs = n_branches s /\ routed kmeans s fs d cs) /\
    children_ok P s n d cs.

(** The state in which [fit] is entered for node [c] at depth [d]. *)
Definition fit_pre (c d : nat) (s : CBIR) : Prop :=
  _current_index s = c /\
  nx.node_order (nx.add_node c (graph s)) = seq 0 (S c) /\
  nx.succ (nx.add_node c (graph s)) !! c = Some [] /\
  nx.node (nx.add_node c (graph s)) !! c = Some nx.no_attrs /\
  fresh_above s c /\
  (d <= depth s)%nat.

(** The state in which that invocation returns. *)
Definition fit_post (kmeans : nat -> list feature -> list nat * list (list Q))
    (P : feature -> Prop) (c : nat) (fs : list feature) (d : nat) (root : ndarray)
    (s s' : CBIR) : Prop :=
  static s' = static s /\
  (c <= _current_index s')%nat /\
  nx.node_order (graph s') = seq 0 (S (_current_index s')) /\
  (forall n, (n < c)%nat -> view s' n = view s n) /\
  fresh_above s' (_current_index s') /\
  nodes s' !! c = Some root /\
  (forall n, (c <= n <= _current_index s')%nat -> nx.node (graph s') !! n = Some nx.no_attrs) /\
  exists L, fit_log s' = fit_log s ++ (c, fs, d) :: L /\
            map (fun e => e.1.1) L = seq (S c) (_current_index s' - c) /\
            Forall (call_ok kmeans P s') ((c, fs, d) :: L).

(** The invariant of the loop over the clusters of node [c], after the
    clusters [done]; [children] are the features of each cluster. *)
Definition fit_loop_inv (kmeans : nat -> list feature -> list nat * list (list Q))
    (P : feature -> Prop) (c : nat) (fs : list feature) (d : nat) (root : ndarray)
    (children : list (list feature)) (s : CBIR) (done : list nat) (t : CBIR) : Prop :=
  static t = static s /\
  (c <= _current_index t)%nat /\
  nx.node_order (graph t) = seq 0 (S (_current_index t)) /\
  (forall n, (n < c)%nat -> view t n = view s n) /\
  fresh_above t (_current_index t) /\
  nodes t !! c = Some root /\
  (forall n, (c <= n <= _current_index t)%nat -> nx.node (graph t) !! n = Some nx.no_attrs) /\
  is_Some (tree t !! c) /\
  (exists cs, nx.succ (graph t) !! c = Some cs /\ length cs = length done /\
              Forall2 (fun x child_features => (x, child_features, S d) ∈ fit_log t)
                cs (take (length done) children) /\
              children_ok P t c d cs) /\
  exists L, fit_log t = fit_log s ++ (c, fs, d) :: L /\
            map (fun e => e.1.1) L = seq (S c) (_current_index t - c) /\
            Forall (call_ok kmeans P t) L.

(** A state whose tree is the one that [fit] builds on a new object: the
    nodes are [0 .. _current_index] in the order of their creation, and the
    invocations of [fit], one per node in that order, are as [call_ok]
    says. *)
Definition fitted (kmeans : nat -> list feature -> list nat * list (list Q))
    (P : feature -> Prop) (s : CBIR) : Prop :=
  nx.node_order (graph s) = seq 0 (S (_current_index s)) /\
  fresh_above s (_current_index s) /\
  map (fun e => e.1.1) (fit_log s) = seq 0 (S (_current_index s)) /\
  Forall (call_ok kmeans P s) (fit_log s).

(** What an invocation of [fit] that is given enough fuel does; [rec] is
    the function that is called. *)
Definition rec_spec (kmeans : nat -> list feature -> list nat * list (list Q))
    (P : feature -> Prop) (fuel : nat)
    (rec : option (list feature) -> nat -> option ndarray -> nat -> M unit) : Prop :=
  forall fs c root d t,
    kmeans_ok kmeans (n_branches t) P -> Forall P fs -> fit_pre c d t ->
    (depth t < fuel + d)%nat ->
    (rec (Some fs) c (Some root) d t).1 = Ret tt /\
    fit_post kmeans P c fs d root t (rec (Some fs) c (Some root) d t).2.

(** The number of visits recorded at a node for an image. *)
Definition visit_count (s : CBIR) (node : nat) (image_id : string) : nat :=
  match nx.node (graph s) !! node with
  | Some files => default 0%nat (nx.visits files !! image_id)
  | None => 0%nat
  end.

(** No node carries a weight: [index] has not run on the object. *)
Definition no_weights (s : CBIR) : Prop :=
  forall k files, nx.node (graph s) !! k = Some files -> nx.w files = None.

(** The weight that [index] gives to a node with these attributes on a
    corpus of [N] images, when the node has no weight yet. *)
Definition idf (N : nat) (files : nx.attrs) : option weight :=
  match size (nx.visits files) with
  | O => None
  | S _ => Some (Log (Q_of_nat N / Q_of_nat (size (nx.visits files))))
  end.

(** * Further vocabulary *)

Section new.

Variable kmeans : nat -> list feature -> list nat * list (list Q).

(** [CBIR(root, n_branches, depth, initialise=...)], the dataset being the
    one made from [root]: with [initialise] the tree is built and the index
    computed, by [self.fit()] and [self.index()] (so with [parallel]). *)
Definition new (d : Dataset.t) (n_branches depth : nat) (initialise : bool)
    : outcome unit * CBIR :=
  if initialise then (fit kmeans;; index true) (init d n_branches depth)
  else (Ret tt, init d n_branches depth).

End new.

(** The attributes of a node after a run of [propagate] for the image
    [image_id]: the weight and the counters of the other images are as
    they were, the counter of the image has not decreased. *)
Definition attrs_grow (image_id : string) (a a' : nx.attrs) : Prop :=
  nx.w a' = nx.w a /\
  (forall i, i <> image_id -> nx.visits a' !! i = nx.visits a !! i) /\
  (default 0%nat (nx.visits a !! image_id) <= default 0%nat (nx.visits a' !! image_id))%nat.

(** The attributes of a node after the loop of [index] over the nodes:
    a node that the loop meets ([listed]) with a non-empty attribute
    dictionary receives [np.log(N / len(files))]. *)
Definition weighed (N : nat) (listed : bool) (files : nx.attrs) : nx.attrs :=
  match listed, nx.attrs_len files with
  | true, S _ =>
      {| nx.visits := nx.visits files;
         nx.w := Some (Log (Q_of_nat N / Q_of_nat (nx.attrs_len files))) |}
  | _, _ => files
  end.

(** [a] does not come after [b] in a list sorted by score. *)
Definition score_le (a b : string * npfloat) : Prop := fltb b.2 a.2 = false.

Definition is_finite (x : npfloat) : Prop := exists q, x = Fin q.

Definition unit_interval (q : Q) : Prop := (0 <= q <= 1)%Q.

(** Every node of [s] is a node of [t], with attributes that have grown
    for the image. *)
Definition grown_from (image_id : string) (s t : CBIR) : Prop :=
  forall k a, nx.node (graph s) !! k = Some a ->
    exists a', nx.node (graph t) !! k = Some a' /\ attrs_grow image_id a a'.

(** The two objects have the same nodes in the same order, and every node
    holds the same counter in both for each image that satisfies [P]. *)
Definition same_counts (P : string -> Prop) (s t : CBIR) : Prop :=
  nx.node_order (graph s) = nx.node_order (graph t) /\
  forall k,
    match nx.node (graph s) !! k, nx.node (graph t) !! k with
    | Some a, Some a' => forall j, P j -> nx.visits a !! j = nx.visits a' !! j
    | None, None => True
    | _, _ => False
    end.
(** * Reasoning about the monad *)

Lemma preserves_ret {A} I (a : A) : preserves I (mret a).
Proof. intros s H. exact H. Qed.

Lemma preserves_get I : preserves I get.
Proof. intros s H. exact H. Qed.

Lemma preserves_lift {A} I (o : outcome A) : preserves I (lift o).
Proof. intros s H. exact H. Qed.

Lemma preserves_modify I f : (forall s, I s -> I (f s)) -> preserves I (modify f).
Proof. intros Hf s H. apply Hf, H. Qed.

Lemma preserves_bind {A B} I (m : M A) (f : A -> M B) :
  preserves I m -> (forall a, preserves I (f a)) -> preserves I (m ≫= f).
Proof.
  intros Hm Hf s H. unfold mbind, M_bind.
  specialize (Hm s H). destruct (m s) as [[a | e |] t]; simpl in *; auto.
  apply Hf, Hm.
Qed.

Lemma preserves_for {A} I (l : list A) (body : A -> M unit) :
  (forall x, preserves I (body x)) -> preserves I (for_ l body).
Proof.
  intros Hb. induction l as [| x l IH]; simpl.
  - apply preserves_ret.
  - apply preserves_bind; auto.
Qed.

(** A loop that completes, with an invariant indexed by the items done. *)
Lemma for_complete {A} (I : list A -> CBIR -> Prop) (l : list A) (body : A -> M unit) s :
  I [] s ->
  (forall done x rest t, l = done ++ x :: rest -> I done t ->
     (body x t).1 = Ret tt /\ I (done ++ [x]) (body x t).2) ->
  (for_ l body s).1 = Ret tt /\ I l (for_ l body s).2.
Proof.
  intros H0 Hstep.
  assert (G : forall rest done t, l = done ++ rest -> I done t ->
            (for_ rest body t).1 = Ret tt /\ I l (for_ rest body t).2).
  { induction rest as [| x rest IH]; intros done t El Hd; simpl.
    - rewrite app_nil_r in El. subst. auto.
    - destruct (Hstep done x rest t El Hd) as [Hr Hi].
      unfold mbind, M_bind. destruct (body x t) as [o t']; simpl in *; subst o.
      apply (IH (done ++ [x])); [by rewrite <- app_assoc | exact Hi]. }
  apply (G l [] s); auto.
Qed.

(** * The tree is not touched after [fit] *)

Lemma set_attrs_skeleton s n a :
  is_Some (nx.node (graph s) !! n) ->
  skeleton (set_graph (nx.set_node <[n := a]>) s) = skeleton s.
Proof.
  intros Hn. unfold skeleton; simpl. f_equal. f_equal.
  rewrite dom_insert_L. apply elem_of_dom in Hn.
  apply subseteq_union_1_L. by apply singleton_subseteq_l.
Qed.

Lemma visit_skeleton k n i : preserves (fun s => skeleton s = k) (visit n i).
Proof.
  intros s H. unfold visit, mbind, M_bind, get; simpl.
  destruct (nx.node (graph s) !! n) as [a |] eqn:E; simpl; [| exact H].
  rewrite set_attrs_skeleton; [exact H | rewrite E; eauto].
Qed.

Lemma set_weight_skeleton k n x : preserves (fun s => skeleton s = k) (set_weight n x).
Proof.
  intros s H. unfold set_weight, mbind, M_bind, get; simpl.
  destruct (nx.node (graph s) !! n) as [a |] eqn:E; simpl; [| exact H].
  rewrite set_attrs_skeleton; [exact H | rewrite E; eauto].
Qed.

Lemma propagate_skeleton k p : preserves (fun s => skeleton s = k) (propagate p).
Proof.
  unfold propagate. apply preserves_bind; [apply preserves_get |]. intros self.
  apply preserves_for. intros f.
  apply preserves_bind; [apply preserves_get |]. intros self'.
  apply preserves_bind; [apply preserves_lift |]. intros path.
  apply preserves_for. intros n. apply visit_skeleton.
Qed.

Lemma weigh_node_skeleton k N n : preserves (fun s => skeleton s = k) (weigh_node N n).
Proof.
  unfold weigh_node. apply preserves_bind; [apply preserves_get |]. intros self.
  destruct (nx.node (graph self) !! n) as [a |]; [| apply preserves_ret].
  destruct (nx.attrs_len a); [apply preserves_ret | apply set_weight_skeleton].
Qed.

Lemma index_skeleton k b : preserves (fun s => skeleton s = k) (index b).
Proof.
  unfold index. apply preserves_bind; [apply preserves_get |]. intros self.
  apply preserves_bind.
  { apply preserves_for. intros p. destruct b; [apply preserves_ret | apply propagate_skeleton]. }
  intros _. apply preserves_bind; [apply preserves_get |]. intros self'.
  apply preserves_for. intros n. apply weigh_node_skeleton.
Qed.

Lemma retrieve_skeleton k q : preserves (fun s => skeleton s = k) (retrieve q).
Proof.
  unfold retrieve. apply preserves_bind; [apply propagate_skeleton |]. intros _.
  apply preserves_bind; [apply preserves_get |]. intros self.
  apply preserves_bind; [apply preserves_lift |]. intros sc.
  apply preserves_ret.
Qed.

(** C9. Whatever the state of the object and whatever the outcome
    (completion, an exception half way, no termination within the fuel),
    [propagate], [index] and [retrieve] leave the skeleton of the object as
    it was: the nodes and their order, the edges, the centres, the counter
    and the configuration. Only attribute dictionaries of existing nodes
    (visit counters and weights) change. [score] and [encode] are functions
    of the object and cannot change it. *)
Theorem topology_immutable_after_fit :
  forall (s : CBIR) (image : string) (parallel : bool),
    skeleton (propagate image s).2 = skeleton s /\
    skeleton (index parallel s).2 = skeleton s /\
    skeleton (retrieve image s).2 = skeleton s.
Proof.
  intros s image parallel. split; [| split].
  - exact (propagate_skeleton _ _ s eq_refl).
  - exact (index_skeleton _ _ s eq_refl).
  - exact (retrieve_skeleton _ _ s eq_refl).
Qed.

(** * Arithmetic of the encoding *)

Lemma Q_of_nat_nonneg n : (0 <= Q_of_nat n)%Q.
Proof. unfold Q_of_nat, Qle; simpl. lia. Qed.

Lemma Q_of_nat_S n : (Q_of_nat (S n) == 1 + Q_of_nat n)%Q.
Proof. unfold Q_of_nat. rewrite Nat2Z.inj_succ, <- Z.add_1_l, inject_Z_plus. reflexivity. Qed.

Lemma Q_of_nat_plus a b : (Q_of_nat (a + b) == Q_of_nat a + Q_of_nat b)%Q.
Proof. unfold Q_of_nat. rewrite Nat2Z.inj_add, inject_Z_plus. reflexivity. Qed.

Lemma Q_of_nat_zero_iff n : (Q_of_nat n == 0)%Q <-> n = 0%nat.
Proof. unfold Q_of_nat, Qeq; simpl. lia. Qed.

Lemma Qsum_nat l : (Qsum (map Q_of_nat l) == Q_of_nat (sum_list l))%Q.
Proof.
  induction l as [| x l IH]; simpl; [reflexivity |].
  rewrite IH, Q_of_nat_plus. reflexivity.
Qed.

Lemma norm_l1_nat l : (norm_l1 (map Q_of_nat l) == Q_of_nat (sum_list l))%Q.
Proof.
  induction l as [| x l IH]; simpl; [reflexivity |].
  rewrite IH, Q_of_nat_plus, (Qabs_pos (Q_of_nat x) (Q_of_nat_nonneg x)). reflexivity.
Qed.

Lemma np_sum_Fin qs : np_sum (map Fin qs) = Fin (Qsum qs).
Proof. unfold np_sum. induction qs as [| q qs IH]; simpl; [reflexivity |]. by rewrite IH. Qed.

Lemma Qsum_div qs n : (Qsum (map (fun x => x / n) qs) == Qsum qs / n)%Q.
Proof.
  induction qs as [| q qs IH]; simpl; [unfold Qdiv; ring |].
  rewrite IH. unfold Qdiv. ring.
Qed.

Lemma encode_unfold s image_id :
  encode s image_id false =
    match map Q_of_nat (tfidf s image_id) with
    | [] => Raise IndexError
    | _ => Ret (Vector (map (fun x => fdiv (Fin x) (Fin (norm_l1 (map Q_of_nat (tfidf s image_id)))))
                          (map Q_of_nat (tfidf s image_id))))
    end.
Proof. reflexivity. Qed.

(** C7. For an image with at least one recorded visit, [encode] returns
    the vector of the visit counts of the image at the nodes (in the order
    of the nodes of the graph), each divided by the total number of visits,
    and the entries of the vector sum to exactly 1. *)
Theorem encode_sums_to_one :
  forall (s : CBIR) (image_id : string),
    (0 < total_visits s image_id)%nat ->
    exists v,
      encode s image_id false = Ret (Vector v) /\
      Forall2 (fun count x =>
                 feq x (Fin (Q_of_nat count / Q_of_nat (total_visits s image_id))))
              (tfidf s image_id) v /\
      feq (np_sum v) (Fin 1).
Proof.
  intros s image_id Hpos. unfold total_visits in *.
  rewrite encode_unfold. set (l := tfidf s image_id) in *.
  assert (Hn : (norm_l1 (map Q_of_nat l) == Q_of_nat (sum_list l))%Q) by apply norm_l1_nat.
  assert (Hnz : ~ (Q_of_nat (sum_list l) == 0)%Q) by (rewrite Q_of_nat_zero_iff; lia).
  assert (Hb : Qeq_bool (norm_l1 (map Q_of_nat l)) 0 = false).
  { apply not_true_is_false. intros Hb. apply Qeq_bool_eq in Hb. apply Hnz. by rewrite <- Hn. }
  assert (Hv : map (fun x => fdiv (Fin x) (Fin (norm_l1 (map Q_of_nat l)))) (map Q_of_nat l)
               = map Fin (map (fun x => x / norm_l1 (map Q_of_nat l))%Q (map Q_of_nat l))).
  { rewrite !map_map. apply map_ext. intros c. simpl. by rewrite Hb. }
  destruct (map Q_of_nat l) eqn:El.
  { destruct l; [simpl in Hpos; lia | discriminate]. }
  rewrite <- El in *. clear El. eexists. split; [reflexivity |]. split.
  - rewrite Hv, !map_map. clear Hv Hb Hpos Hnz.
    set (n1 := norm_l1 (map Q_of_nat l)) in *. set (tot := sum_list l) in *.
    clearbody n1 tot.
    induction l as [| c l' IH]; simpl; constructor; [| exact IH].
    simpl. rewrite Hn. reflexivity.
  - rewrite Hv, np_sum_Fin. simpl. rewrite Qsum_div, Qsum_nat, Hn.
    by apply Qmult_inv_r.
Qed.

Lemma encode_sums_to_one_witness :
  exists v,
    encode demo.after_index "a.jpg" false = Ret (Vector v) /\
    Forall2 (fun count x =>
               feq x (Fin (Q_of_nat count / Q_of_nat (total_visits demo.after_index "a.jpg"))))
            (tfidf demo.after_index "a.jpg") v /\
    feq (np_sum v) (Fin 1).
Proof. apply (encode_sums_to_one demo.after_index "a.jpg"). vm_compute. lia. Defined.

(** * Encoding an image that was never indexed *)

Lemma sum_list_zero l : sum_list l = 0%nat -> l = replicate (length l) 0%nat.
Proof.
  induction l as [| x l IH]; simpl; [reflexivity |]. intros H.
  assert (x = 0%nat) as -> by lia. f_equal. apply IH. lia.
Qed.

Lemma tfidf_length s image_id :
  length (tfidf s image_id) = length (nx.nodes_data (graph s)).
Proof. unfold tfidf. apply length_map. Qed.

Lemma norm_l1_zeros n : (norm_l1 (replicate n (Q_of_nat 0)) == 0)%Q.
Proof. induction n as [| n IH]; simpl; [reflexivity |]. rewrite IH. reflexivity. Qed.

Lemma map_replicate_zero n : map Q_of_nat (replicate n 0%nat) = replicate n (Q_of_nat 0).
Proof. induction n as [| n IH]; simpl; [reflexivity |]. by rewrite IH. Qed.

Lemma fdiv_zero_zero q : Qeq_bool q 0 = true -> fdiv (Fin (Q_of_nat 0)) (Fin q) = NaN.
Proof. intros H. unfold fdiv. rewrite H. reflexivity. Qed.




(** * Scoring an image against itself *)

(** C2, evaluated. In the indexed corpus the vector of ["a.jpg"] is
    (1/4, 1/4, 1/4, 1/8, 1/8); it sums to 1 and its score against itself is
    2 - 2 * 14/64 = 25/16, not 0. *)
Theorem score_self_not_zero :
  exists x,
    score demo.after_index "a.jpg" "a.jpg" = Ret x /\
    feq x (Fin (25 # 16)) /\ ~ feq x (Fin 0).
Proof.
  eexists. split; [vm_compute; reflexivity |]. split; vm_compute; congruence.
Qed.

(** * The choice of a child *)

Lemma distance_array v f :
  length v = length f ->
  distance (Array v) f = Ret (Sqrt (sum_squares (zip_with Qminus v f))).
Proof. intros H. unfold distance, broadcast_sub. by rewrite H, Nat.eqb_refl. Qed.

Lemma sum_squares_nonneg v : (0 <= sum_squares v)%Q.
Proof.
  induction v as [| x v IH]; simpl; [apply Qle_refl |].
  assert (0 <= x * x)%Q by (unfold Qle; simpl; nia).
  change 0%Q with (0 + 0)%Q. by apply Qplus_le_compat.
Qed.

Lemma Q2R_sum_squares v f :
  Q2R (sum_squares (zip_with Qminus v f)) =
  foldr (fun '(x, y) acc => (Q2R x - Q2R y) * (Q2R x - Q2R y) + acc)%R 0%R (zip v f).
Proof.
  revert f. induction v as [| x v IH]; intros [| y f]; simpl; try apply RMicromega.Q2R_0.
  rewrite Q2R_plus, Q2R_mult, Q2R_minus. unfold zip in IH. by rewrite IH.
Qed.

Lemma euclidean_sqrt v f : euclidean v f = sqrt (Q2R (sum_squares (zip_with Qminus v f))).
Proof. unfold euclidean. by rewrite Q2R_sum_squares. Qed.

Lemma euclidean_le v f v' f' :
  (sum_squares (zip_with Qminus v f) <= sum_squares (zip_with Qminus v' f'))%Q ->
  (euclidean v f <= euclidean v' f')%R.
Proof. intros H. rewrite !euclidean_sqrt. apply sqrt_le_1_alt, Qle_Rle, H. Qed.

Lemma euclidean_lt v f v' f' :
  (sum_squares (zip_with Qminus v f) < sum_squares (zip_with Qminus v' f'))%Q ->
  (euclidean v f < euclidean v' f')%R.
Proof.
  intros H. rewrite !euclidean_sqrt. apply sqrt_lt_1_alt. split; [| apply Qlt_Rlt, H].
  rewrite <- RMicromega.Q2R_0. apply Qle_Rle, sum_squares_nonneg.
Qed.

Lemma norm_ltb_Sqrt x y : norm_ltb (Sqrt x) (Sqrt y) = true <-> (x < y)%Q.
Proof. simpl. rewrite Qlt_alt. destruct (x ?= y)%Q; split; congruence. Qed.

Lemma scan_step self f child children min_dist node path v :
  nodes self !! child = Some (Array v) -> length v = length f ->
  scan self f (child :: children) min_dist node path =
    if norm_ltb (Sqrt (sqdist self f child)) min_dist
    then scan self f children (Sqrt (sqdist self f child)) child (path ++ [child])
    else scan self f children min_dist node (path ++ [child]).
Proof.
  intros Hc Hl. unfold sqdist. cbn [scan]. rewrite Hc.
  unfold mbind, outcome_bind. cbn [of_option].
  rewrite (distance_array _ _ Hl). reflexivity.
Qed.

(** The loop started with a finite minimum: either no child is strictly
    nearer and the state is kept, or the first of the nearest children is
    selected. *)
Lemma scan_from self f children :
  centres_match self f children ->
  forall m0 node0 path,
  exists m node,
    scan self f children (Sqrt m0) node0 path = Ret (Sqrt m, node, path ++ children) /\
    ((m = m0 /\ node = node0 /\
      forall child, child ∈ children -> (m0 <= sqdist self f child)%Q) \/
     (exists i, children !! i = Some node /\ m = sqdist self f node /\ (m < m0)%Q /\
        forall j child, children !! j = Some child ->
          (m <= sqdist self f child)%Q /\ ((j < i)%nat -> (m < sqdist self f child)%Q))).
Proof.
  induction children as [| child children IH]; intros Hc m0 node0 path.
  - exists m0, node0. rewrite app_nil_r. split; [reflexivity |]. left.
    repeat split. intros child H. by apply elem_of_nil in H.
  - destruct (Hc child) as (v & Hv & Hl); [apply list_elem_of_here |].
    assert (Hc' : centres_match self f children).
    { intros c Hin. apply Hc. by apply list_elem_of_further. }
    rewrite (scan_step _ _ _ _ _ _ _ _ Hv Hl).
    set (d := sqdist self f child).
    destruct (norm_ltb (Sqrt d) (Sqrt m0)) eqn:Hlt.
    + apply norm_ltb_Sqrt in Hlt.
      destruct (IH Hc' d child (path ++ [child])) as (m & node & Hrun & Hcase).
      exists m, node. rewrite <- app_assoc in Hrun. split; [exact Hrun |]. right.
      destruct Hcase as [(-> & -> & Hall) | (i & Hi & Hm & Hmd & Hall)].
      * exists 0%nat. repeat split; try done.
        -- destruct j as [| j]; simpl in H.
           ++ injection H as <-. apply Qle_refl.
           ++ apply Hall. eapply list_elem_of_lookup_2, H.
        -- lia.
      * exists (S i). repeat split; try done.
        -- by apply Qlt_trans with d.
        -- destruct j as [| j]; simpl in H.
           ++ injection H as <-. by apply Qlt_le_weak.
           ++ by apply (Hall j).
        -- destruct j as [| j]; simpl in H.
           ++ injection H as <-. done.
           ++ intros Hji. apply (Hall j); [done | lia].
    + assert (Hge : (m0 <= d)%Q).
      { apply Qnot_lt_le. intros Hd. apply norm_ltb_Sqrt in Hd. congruence. }
      destruct (IH Hc' m0 node0 (path ++ [child])) as (m & node & Hrun & Hcase).
      exists m, node. rewrite <- app_assoc in Hrun. split; [exact Hrun |].
      destruct Hcase as [(-> & -> & Hall) | (i & Hi & Hm & Hmd & Hall)].
      * left. repeat split. intros c Hin. apply elem_of_cons in Hin as [-> | Hin]; auto.
      * right. exists (S i). repeat split; try done.
        -- destruct j as [| j]; simpl in H.
           ++ injection H as <-. apply Qlt_le_weak. by apply Qlt_le_trans with m0.
           ++ by apply (Hall j).
        -- destruct j as [| j]; simpl in H.
           ++ injection H as <-. intros _. by apply Qlt_le_trans with m0.
           ++ intros Hji. apply (Hall j); [done | lia].
Qed.

(** The loop as [propagate_feature] starts it, with [min_dist = inf]. *)
Lemma scan_first_nearest self f children node0 path :
  children <> [] -> centres_match self f children ->
  exists i node,
    scan self f children NormInf node0 path =
      Ret (Sqrt (sqdist self f node), node, path ++ children) /\
    children !! i = Some node /\
    forall j child, children !! j = Some child ->
      (sqdist self f node <= sqdist self f child)%Q /\
      ((j < i)%nat -> (sqdist self f node < sqdist self f child)%Q).
Proof.
  destruct children as [| child children]; [done |]. intros _ Hc.
  destruct (Hc child) as (v & Hv & Hl); [apply list_elem_of_here |].
  assert (Hc' : centres_match self f children).
  { intros c Hin. apply Hc. by apply list_elem_of_further. }
  rewrite (scan_step _ _ _ _ _ _ _ _ Hv Hl). simpl norm_ltb. cbv iota.
  set (d := sqdist self f child).
  destruct (scan_from self f children Hc' d child (path ++ [child]))
    as (m & node & Hrun & Hcase).
  rewrite <- app_assoc in Hrun.
  destruct Hcase as [(-> & -> & Hall) | (i & Hi & Hm & Hmd & Hall)].
  - exists 0%nat, child. split; [exact Hrun |]. split; [reflexivity |].
    intros j c H. split; [| lia]. destruct j as [| j]; simpl in H.
    + injection H as <-. apply Qle_refl.
    + apply Hall. eapply list_elem_of_lookup_2, H.
  - exists (S i), node. subst m. split; [exact Hrun |]. split; [exact Hi |].
    intros j c H. destruct j as [| j]; simpl in H.
    + injection H as <-. split; [by apply Qlt_le_weak | done].
    + split; [by apply (Hall j) |]. intros Hji. apply (Hall j); [done | lia].
Qed.

Lemma descend_step fuel self f node path children :
  nx.succ (graph self) !! node = Some children -> children <> [] ->
  descend (S fuel) self f node path =
    '(_, node, path) ← scan self f children NormInf node path;
    descend fuel self f node path.
Proof.
  intros Hs Hne. cbn [descend]. unfold nx.out_degree, nx.successors. rewrite Hs.
  destruct children; [done |]. reflexivity.
Qed.



(** * The construction of the tree *)

Lemma group_ok (P : feature -> Prop) fs : forall labels ch k,
  length ch = k -> (length fs <= length labels)%nat ->
  Forall (fun l => l < k)%nat labels -> Forall P fs -> Forall (Forall P) ch ->
  exists ch', group fs labels ch = Ret ch' /\ length ch' = k /\ Forall (Forall P) ch'.
Proof.
  induction fs as [| f fs IH]; intros labels ch k Hk Hlen Hlab HP Hch; simpl.
  - eauto.
  - destruct labels as [| l labels]; [simpl in Hlen; lia |].
    apply Forall_cons in Hlab as [Hl Hlab]. apply Forall_cons in HP as [Hf HP].
    destruct (lookup_lt_is_Some_2 ch l) as [c Hc]; [lia |]. rewrite Hc.
    apply IH; simpl in *; try done.
    + by rewrite length_insert.
    + lia.
    + apply Forall_insert; [done |]. apply Forall_app. split.
      * eapply Forall_lookup_1 in Hch; eauto.
      * by apply Forall_singleton.
Qed.

Lemma add_node_present n g : is_Some (nx.succ g !! n) -> nx.add_node n g = g.
Proof. intros [cs H]. unfold nx.add_node. by rewrite H. Qed.

Lemma fit_rec_S kmeans fuel fs c root d s :
  fit_rec kmeans (S fuel) (Some fs) c (Some root) d s =
    let s3 := set_fit_log (fun l => l ++ [(c, fs, d)])
                (set_graph (nx.add_node c) (set_nodes <[c := root]> s)) in
    if is_leaf_call s (length fs) d then (Ret tt, s3)
    else match group fs (kmeans (n_branches s) fs).1 (replicate (n_branches s) []) with
         | Ret children =>
             for_ (seq 0 (n_branches s))
               (fit_child (fit_rec kmeans fuel) c d children (kmeans (n_branches s) fs).2)
               (set_tree <[c := []]> s3)
         | Raise e => (Raise e, s3)
         | Diverge => (Diverge, s3)
         end.
Proof.
  cbn [fit_rec]. unfold mbind, M_bind, get, modify, lift, mret, M_ret. cbn beta iota.
  destruct (is_leaf_call s (length fs) d); [reflexivity |].
  destruct (group fs _ _); reflexivity.
Qed.

Lemma fit_child_run rec c d children centres i t l ci ce :
  tree t !! c = Some l -> children !! i = Some ci -> centres !! i = Some ce ->
  fit_child rec c d children centres i t =
    rec (Some ci) (S (_current_index t)) (Some (Array ce)) (S d)
      (set_graph (nx.add_edge c (S (_current_index t)))
         (set_tree <[c := l ++ [S (_current_index t)]]> (set_current_index S t))).
Proof.
  intros Ht Hci Hce. unfold fit_child, tree_append, mbind, M_bind, get, modify, lift. simpl.
  rewrite Ht, Hci, Hce. reflexivity.
Qed.

Ltac proj_simpl :=
  unfold view, static in *;
  cbn [graph nodes tree _current_index fit_log dataset n_branches depth
       set_graph set_nodes set_tree set_current_index set_fit_log
       nx.node nx.succ nx.node_order nx.set_node fst snd] in *.

Lemma add_node_succ_ne c n g : n <> c -> nx.succ (nx.add_node c g) !! n = nx.succ g !! n.
Proof.
  intros H. unfold nx.add_node. destruct (nx.succ g !! c); [done |].
  simpl. by rewrite lookup_insert_ne.
Qed.

Lemma add_node_node_ne c n g : n <> c -> nx.node (nx.add_node c g) !! n = nx.node g !! n.
Proof.
  intros H. unfold nx.add_node. destruct (nx.succ g !! c); [done |].
  simpl. by rewrite lookup_insert_ne.
Qed.

Lemma add_edge_fresh g u v cs :
  nx.succ g !! u = Some cs -> nx.succ g !! v = None -> v ∉ cs ->
  nx.add_edge u v g =
    {| nx.node_order := nx.node_order g ++ [v];
       nx.node := <[v := nx.no_attrs]> (nx.node g);
       nx.succ := <[u := cs ++ [v]]> (<[v := []]> (nx.succ g)) |}.
Proof.
  intros Hu Hv Hin. assert (u <> v) by congruence.
  unfold nx.add_edge. rewrite (add_node_present u g) by (rewrite Hu; eauto).
  unfold nx.add_node. rewrite Hv. simpl. f_equal.
  apply map_eq. intros k. rewrite lookup_alter.
  destruct (decide (u = k)) as [<- | Hk].
  - rewrite lookup_insert_eq, lookup_insert_ne, Hu by done. simpl.
    by rewrite bool_decide_eq_false_2.
  - by rewrite (lookup_insert_ne _ u k).
Qed.

Lemma is_leaf_call_static s s' nf d :
  static s' = static s -> is_leaf_call s' nf d = is_leaf_call s nf d.
Proof. unfold static, is_leaf_call. intros [= _ -> ->]. reflexivity. Qed.

Lemma call_ok_stable kmeans P t t' e :
  call_ok kmeans P t e ->
  static t' = static t ->
  (_current_index t <= _current_index t')%nat ->
  (forall m, (e.1.1 <= m <= _current_index t)%nat -> view t' m = view t m) ->
  (forall x, x ∈ fit_log t -> x ∈ fit_log t') ->
  (e.1.1 <= _current_index t)%nat ->
  call_ok kmeans P t' e.
Proof.
  destruct e as [[n fs] d]. simpl.
  intros (Hd & Hnode & cs & Hs & Hleaf & Hnd & Hch) Hst Hle Hview Hlog Hn.
  assert (Hvn := Hview n (conj (le_n _) Hn)). unfold view in Hvn.
  injection Hvn as Hv1 Hv2 Hv3 Hv4.
  assert (Hdep : depth t' = depth t) by (unfold static in Hst; congruence).
  split; [by rewrite Hdep |].
  split; [by rewrite Hv2 |].
  exists cs. split; [by rewrite Hv1 |].
  assert (Hnb : n_branches t' = n_branches t) by (unfold static in Hst; congruence).
  split.
  { rewrite (is_leaf_call_static _ _ _ _ Hst), Hnb.
    destruct (is_leaf_call t (length fs) d); [exact Hleaf |].
    destruct Hleaf as [Hlen (children & Hg & Hall)]. split; [exact Hlen |].
    exists children. unfold routed. rewrite Hnb. split; [exact Hg |].
    eapply Forall2_impl; [exact Hall |]. intros x ci Hx. by apply Hlog. }
  split; [exact Hnd |].
  intros x Hx. destruct (Hch x Hx) as (Hrange & (v & Hv & HP) & fs' & Hfs).
  split; [lia |]. split.
  - exists v. split; [| exact HP].
    assert (Hvx := Hview x ltac:(lia)). unfold view in Hvx. injection Hvx as _ _ Hx3 _.
    by rewrite Hx3.
  - exists fs'. by apply Hlog.
Qed.

Lemma seq_split_elem n done i rest :
  seq 0 n = done ++ i :: rest -> i = length done /\ (length done < n)%nat.
Proof.
  intros H. assert (Hl := f_equal length H). rewrite length_seq, length_app in Hl.
  simpl in Hl. split; [| lia].
  assert (Hi : seq 0 n !! length done = Some i) by (rewrite H; apply list_lookup_middle; done).
  apply lookup_seq in Hi. lia.
Qed.

Lemma set_graph_id s : set_graph (fun g => g) s = s.
Proof. by destruct s. Qed.

Section fit_spec.
Variable kmeans : nat -> list feature -> list nat * list (list Q).
Variable P : feature -> Prop.

Lemma fit_leaf_post (fs : list feature) c root d s :
  fit_pre c d s -> is_leaf_call s (length fs) d = true ->
  fit_post kmeans P c fs d root s
    (set_fit_log (fun l => l ++ [(c, fs, d)])
       (set_graph (nx.add_node c) (set_nodes <[c := root]> s))).
Proof.
  intros (Hc & Hord & Hsucc & Hnode & Hfresh & Hd) Hleaf.
  unfold fit_post. proj_simpl. rewrite Hc.
  split; [reflexivity |]. split; [lia |]. split; [exact Hord |].
  split. { intros n Hn. rewrite add_node_succ_ne, add_node_node_ne, lookup_insert_ne by lia. reflexivity. }
  split. { intros n Hn. destruct (Hfresh n Hn). proj_simpl. rewrite add_node_succ_ne, add_node_node_ne by lia. done. }
  split; [apply lookup_insert_eq |].
  split. { intros n Hn. assert (n = c) as -> by lia. exact Hnode. }
  exists []. split; [reflexivity |]. split; [by rewrite Nat.sub_diag |].
  apply Forall_singleton. unfold call_ok. proj_simpl.
  split; [exact Hd |]. split; [rewrite Hnode; eauto |].
  exists []. split; [exact Hsucc |].
  split. { unfold is_leaf_call in *. proj_simpl. by rewrite Hleaf. }
  split; [constructor |]. intros x Hx. by apply elem_of_nil in Hx.
Qed.


Lemma fit_loop_step fuel rec s c (fs : list feature) d root children centres done i rest t :
  rec_spec kmeans P fuel rec ->
  kmeans_ok kmeans (n_branches s) P ->
  length children = n_branches s -> Forall (Forall P) children ->
  length centres = n_branches s -> Forall P centres ->
  seq 0 (n_branches s) = done ++ i :: rest ->
  (d < depth s)%nat -> (depth s < fuel + S d)%nat ->
  fit_loop_inv kmeans P c fs d root children s done t ->
  (fit_child rec c d children centres i t).1 = Ret tt /\
  fit_loop_inv kmeans P c fs d root children s (done ++ [i]) (fit_child rec c d children centres i t).2.
Proof.
  intros Hrec Hk Hchl HchP Hcel HceP Hsplit Hd Hfuel
    (Hst & Hcle & Hord & Hframe & Hfr & Hroot & Hattr & [l Hl] &
     (cs & Hcs & Hcslen & Hcsroute & Hcsnd & Hcsok) & L & HL & HLmap & HLok).
  apply seq_split_elem in Hsplit as [-> Hi].
  destruct (lookup_lt_is_Some_2 children (length done)) as [ci Hci]; [lia |].
  destruct (lookup_lt_is_Some_2 centres (length done)) as [ce Hce]; [lia |].
  rewrite (fit_child_run _ _ _ _ _ _ _ l ci ce Hl Hci Hce).
  set (idx := S (_current_index t)).
  set (t1 := set_graph _ (set_tree _ (set_current_index S t))).
  assert (Hidx_fresh : nx.succ (graph t) !! idx = None /\ nx.node (graph t) !! idx = None)
    by (apply Hfr; lia).
  assert (Hnotin : idx ∉ cs).
  { intros Hin. apply Hcsok in Hin as [Hr _]. lia. }
  assert (Hg1 : graph t1 = {| nx.node_order := nx.node_order (graph t) ++ [idx];
                             nx.node := <[idx := nx.no_attrs]> (nx.node (graph t));
                             nx.succ := <[c := cs ++ [idx]]> (<[idx := []]> (nx.succ (graph t))) |}).
  { subst t1. proj_simpl. apply add_edge_fresh; [done | apply Hidx_fresh | done]. }
  assert (Hst1 : static t1 = static t) by reflexivity.
  assert (Hci1 : _current_index t1 = idx) by reflexivity.
  assert (Hview1 : forall n, n <> c -> n <> idx -> view t1 n = view t n).
  { intros n H1 H2. unfold view. rewrite Hg1. subst t1. proj_simpl.
    by rewrite !lookup_insert_ne. }
  assert (Hpre : fit_pre idx (S d) t1).
  { unfold fit_pre. rewrite add_node_present.
    2:{ rewrite Hg1. proj_simpl. rewrite lookup_insert_ne, lookup_insert_eq by lia. eauto. }
    rewrite Hg1. proj_simpl.
    split; [reflexivity |].
    split. { rewrite Hord. fold idx. by rewrite <- seq_S. }
    split. { rewrite lookup_insert_ne, lookup_insert_eq by lia. reflexivity. }
    split; [apply lookup_insert_eq |].
    split. { intros n Hn. rewrite Hg1. proj_simpl. destruct (Hfr n) as [H1 H2]; [lia |].
             rewrite !lookup_insert_ne by lia. done. }
    subst t1. proj_simpl. unfold static in Hst. injection Hst as _ _ ->. lia. }
  assert (Hk1 : kmeans_ok kmeans (n_branches t1) P).
  { replace (n_branches t1) with (n_branches s); [done |].
    unfold static in Hst. subst t1. proj_simpl. congruence. }
  assert (HPci : Forall P ci) by (eapply Forall_lookup_1 in HchP; eauto).
  assert (HPce : P ce) by (eapply Forall_lookup_1 in HceP; eauto).
  assert (Hf1 : (depth t1 < fuel + S d)%nat).
  { replace (depth t1) with (depth s); [done |].
    unfold static in Hst. subst t1. proj_simpl. congruence. }
  destruct (Hrec ci idx (Array ce) (S d) t1 Hk1 HPci Hpre Hf1) as [Hret Hpost].
  split; [exact Hret |].
  set (t2 := (rec (Some ci) idx (Some (Array ce)) (S d) t1).2) in *.
  destruct Hpost as (Hst2 & Hle2 & Hord2 & Hframe2 & Hfr2 & Hroot2 & Hattr2 &
                     L2 & HL2 & HL2map & HL2ok).
  assert (Hlog1 : fit_log t1 = fit_log t) by reflexivity.
  assert (Hview2 : forall n, (n <= _current_index t)%nat -> n <> c -> view t2 n = view t n).
  { intros n H1 H2. rewrite Hframe2 by (unfold idx; lia). apply Hview1; unfold idx; lia. }
  assert (Hviewc : view t2 c =
            (Some (cs ++ [idx]), nx.node (graph t) !! c, nodes t !! c, Some (l ++ [idx]))).
  { rewrite Hframe2 by (unfold idx; lia). unfold view. rewrite Hg1. subst t1. proj_simpl.
    rewrite !lookup_insert_eq. rewrite lookup_insert_ne by (unfold idx; lia). reflexivity. }
  assert (Hlogsub : forall x, x ∈ fit_log t -> x ∈ fit_log t2).
  { intros x Hx. rewrite HL2, Hlog1. apply elem_of_app. by left. }
  unfold fit_loop_inv.
  split; [by rewrite Hst2, Hst1 |].
  split; [unfold idx in *; lia |].
  split; [exact Hord2 |].
  split. { intros n Hn. rewrite Hview2 by lia. by apply Hframe. }
  split; [exact Hfr2 |].
  split. { unfold view in Hviewc. injection Hviewc as _ _ -> _. exact Hroot. }
  split. { intros n Hn. destruct (decide (n <= _current_index t)%nat) as [Hle | Hgt].
           - destruct (decide (n = c)) as [-> | Hne].
             + unfold view in Hviewc. injection Hviewc as _ -> _ _. apply Hattr. lia.
             + assert (Hv := Hview2 n Hle Hne). unfold view in Hv.
               injection Hv as _ -> _ _. apply Hattr. lia.
           - apply Hattr2. unfold idx. lia. }
  split. { unfold view in Hviewc. injection Hviewc as _ _ _ ->. eauto. }
  split.
  { exists (cs ++ [idx]). split; [unfold view in Hviewc; by injection Hviewc as -> _ _ _ |].
    split; [rewrite !length_app; simpl; lia |].
    split.
    { rewrite length_app. cbn [length]. rewrite Nat.add_1_r, (take_S_r _ _ ci Hci).
      apply Forall2_app.
      - eapply Forall2_impl; [exact Hcsroute |]. intros x y Hxy. by apply Hlogsub.
      - constructor; [| constructor]. rewrite HL2. apply elem_of_app. right.
        apply list_elem_of_here. }
    split. { apply NoDup_app. split; [done |]. split; [| apply NoDup_singleton].
             intros x Hx Hx'. apply list_elem_of_singleton in Hx'. by subst x. }
    intros x Hx. apply elem_of_app in Hx as [Hx | Hx].
    - destruct (Hcsok x Hx) as (Hr & (v & Hv & HPv) & fs' & Hfs').
      split; [lia |]. split.
      + exists v. split; [| done]. assert (Hvx := Hview2 x ltac:(lia) ltac:(lia)).
        unfold view in Hvx. injection Hvx as _ _ -> _. done.
      + exists fs'. by apply Hlogsub.
    - apply list_elem_of_singleton in Hx as ->. split; [unfold idx in *; lia |]. split.
      + exists ce. done.
      + exists ci. rewrite HL2. apply elem_of_app. right. apply list_elem_of_here. }
  exists (L ++ (idx, ci, S d) :: L2).
  split. { rewrite HL2, Hlog1, HL. rewrite <- !app_assoc. reflexivity. }
  split.
  { rewrite map_app. simpl. rewrite HLmap, HL2map.
    replace (_current_index t2 - c)%nat
      with ((_current_index t - c) + S (_current_index t2 - idx))%nat by (unfold idx in *; lia).
    rewrite seq_app. f_equal. replace (S c + (_current_index t - c))%nat with idx
      by (unfold idx; lia). reflexivity. }
  apply Forall_app. split; [| exact HL2ok].
  apply Forall_forall. intros e He.
  assert (Hen : (S c <= e.1.1 <= _current_index t)%nat).
  { assert (Hin : e.1.1 ∈ map (fun e => e.1.1) L) by (apply list_elem_of_fmap; eauto).
    rewrite HLmap in Hin. apply elem_of_seq in Hin. lia. }
  eapply call_ok_stable.
  - eapply Forall_forall in HLok; eauto.
  - by rewrite Hst2, Hst1.
  - unfold idx in *. lia.
  - intros m Hm. apply Hview2; lia.
  - exact Hlogsub.
  - lia.
Qed.


Lemma fit_rec_spec fuel : rec_spec kmeans P fuel (fit_rec kmeans fuel).
Proof.
  induction fuel as [| fuel IH]; intros fs c root d s Hk HP Hpre Hfuel.
  { destruct Hpre as (_ & _ & _ & _ & _ & Hd). lia. }
  rewrite fit_rec_S. cbv zeta.
  destruct (is_leaf_call s (length fs) d) eqn:Hleaf.
  { split; [reflexivity |]. by apply fit_leaf_post. }
  assert (Hnb : (n_branches s <= length fs)%nat /\ (d < depth s)%nat).
  { unfold is_leaf_call in Hleaf. apply orb_false_elim in Hleaf as [H1 H2].
    apply Nat.leb_gt in H1. apply Nat.ltb_ge in H2. done. }
  destruct Hnb as [Hnb Hdlt].
  destruct (Hk fs Hnb HP) as (Hl1 & Hl2 & Hl3 & Hl4).
  destruct (group_ok P fs (kmeans (n_branches s) fs).1 (replicate (n_branches s) [])
              (n_branches s)) as (children & Hg & Hglen & HgP);
    [apply length_replicate | lia | done | done | apply Forall_replicate; constructor |].
  rewrite Hg.
  set (s3 := set_fit_log _ (set_graph _ (set_nodes _ s))).
  set (s4 := set_tree _ s3).
  destruct Hpre as (Hc & Hord & Hsucc & Hnode & Hfresh & Hd).
  destruct (for_complete (fit_loop_inv kmeans P c fs d root children s) (seq 0 (n_branches s))
              (fit_child (fit_rec kmeans fuel) c d children (kmeans (n_branches s) fs).2) s4)
    as [Hret Hinv].
  - (* the invariant holds before the loop *)
    unfold fit_loop_inv. subst s4 s3. proj_simpl. rewrite Hc.
    split; [reflexivity |]. split; [lia |]. split; [exact Hord |].
    split. { intros n Hn. rewrite add_node_succ_ne, add_node_node_ne, !lookup_insert_ne by lia.
             reflexivity. }
    split. { intros n Hn. destruct (Hfresh n Hn). proj_simpl.
             rewrite add_node_succ_ne, add_node_node_ne by lia. done. }
    split; [apply lookup_insert_eq |].
    split. { intros n Hn. assert (n = c) as -> by lia. exact Hnode. }
    split; [rewrite lookup_insert_eq; eauto |].
    split. { exists []. split; [exact Hsucc |]. split; [reflexivity |].
             split; [constructor |].
             split; [constructor |]. intros x Hx. by apply elem_of_nil in Hx. }
    exists []. split; [reflexivity |]. split; [by rewrite Nat.sub_diag |]. constructor.
  - (* one cluster *)
    intros done i rest t Hsplit Hinv.
    eapply (fit_loop_step fuel); eauto. lia.
  - (* the loop is over *)
    split; [exact Hret |].
    set (s' := (for_ _ _ s4).2) in *.
    destruct Hinv as (Hst & Hcle & Hord' & Hframe & Hfr & Hroot & Hattr & _ &
                      (cs & Hcs & Hcslen & Hroute & Hcsok) & L & HL & HLmap & HLok).
    unfold fit_post.
    split; [exact Hst |]. split; [exact Hcle |]. split; [exact Hord' |].
    split; [exact Hframe |]. split; [exact Hfr |]. split; [exact Hroot |].
    split; [exact Hattr |].
    exists L. split; [exact HL |]. split; [exact HLmap |].
    constructor; [| exact HLok].
    unfold call_ok. assert (Hdep : depth s' = depth s) by (unfold static in Hst; congruence).
    assert (Hnbr : n_branches s' = n_branches s) by (unfold static in Hst; congruence).
    split; [lia |]. split; [rewrite Hattr by lia; eauto |].
    exists cs. split; [exact Hcs |].
    split.
    { rewrite (is_leaf_call_static _ _ _ _ Hst), Hleaf, Hcslen, length_seq.
      split; [done |]. exists children. rewrite Hnbr. split; [exact Hg |].
      rewrite length_seq, take_ge in Hroute by lia. exact Hroute. }
    exact Hcsok.
Qed.

(** [fit] on a new object. *)
Lemma fit_init_spec ds n dep :
  kmeans_ok kmeans n P ->
  Forall P (extract_features None (init ds n dep)) ->
  (fit kmeans (init ds n dep)).1 = Ret tt /\
  fit_post kmeans P 0 (extract_features None (init ds n dep)) 0
    (Scalar (np_mean (extract_features None (init ds n dep))))
    (init ds n dep) (fit kmeans (init ds n dep)).2.
Proof.
  intros Hk HP.
  change (fit kmeans (init ds n dep))
    with (fit_rec kmeans (S dep) (Some (extract_features None (init ds n dep))) 0
            (Some (Scalar (np_mean (extract_features None (init ds n dep))))) 0 (init ds n dep)).
  apply fit_rec_spec; [exact Hk | exact HP | | simpl; lia].
  unfold fit_pre. simpl. repeat split; try done; try lia.
Qed.

End fit_spec.

(** * The tree of a new object *)

Lemma map_fmap {A B} (f : A -> B) (l : list A) : map f l = f <$> l.
Proof. reflexivity. Qed.

Lemma fit_fitted kmeans P ds n dep :
  kmeans_ok kmeans n P ->
  Forall P (extract_features None (init ds n dep)) ->
  (fit kmeans (init ds n dep)).1 = Ret tt /\
  fitted kmeans P (fit kmeans (init ds n dep)).2 /\
  static (fit kmeans (init ds n dep)).2 = (ds, n, dep) /\
  head (fit_log (fit kmeans (init ds n dep)).2) =
    Some (0%nat, extract_features None (init ds n dep), 0%nat) /\
  (forall k a, nx.node (graph (fit kmeans (init ds n dep)).2) !! k = Some a -> a = nx.no_attrs).
Proof.
  intros Hk HP. destruct (fit_init_spec kmeans P ds n dep Hk HP) as [Hret Hpost].
  split; [exact Hret |].
  set (s := (fit kmeans (init ds n dep)).2) in *.
  destruct Hpost as (Hst & _ & Hord & _ & Hfr & _ & Hattr & L & HL & HLmap & HLok).
  simpl in HL. split; [| split; [exact Hst | split]].
  - split; [exact Hord |]. split; [exact Hfr |]. split; [| by rewrite HL].
    rewrite HL. simpl. rewrite HLmap, Nat.sub_0_r. reflexivity.
  - by rewrite HL.
  - intros k a Ha. destruct (decide (k <= _current_index s)%nat) as [Hle | Hgt].
    + rewrite Hattr in Ha by lia. congruence.
    + destruct (Hfr k) as [_ Hn]; [lia |]. congruence.
Qed.

(** Every node up to the counter has its invocation in the log. *)
Lemma fitted_call kmeans P s k :
  fitted kmeans P s -> (k <= _current_index s)%nat ->
  exists fs d, (k, fs, d) ∈ fit_log s /\ call_ok kmeans P s (k, fs, d).
Proof.
  intros (_ & _ & Hmap & Hok) Hk.
  assert (Hin : k ∈ map (fun e => e.1.1) (fit_log s)).
  { rewrite Hmap. apply elem_of_seq. lia. }
  apply list_elem_of_fmap in Hin as ([[k' nf] d] & Hk' & Hin). simpl in Hk'. subst k'.
  exists nf, d. split; [exact Hin |]. eapply Forall_forall in Hok; eauto.
Qed.

Lemma fitted_succ kmeans P s k :
  fitted kmeans P s -> is_Some (nx.succ (graph s) !! k) <-> (k <= _current_index s)%nat.
Proof.
  intros Hf. split.
  - intros [cs Hcs]. destruct (decide (k <= _current_index s)%nat) as [| Hgt]; [done |].
    destruct Hf as (_ & Hfr & _). destruct (Hfr k) as [Hn _]; [lia |]. congruence.
  - intros Hk. destruct (fitted_call _ P s k Hf Hk) as (nf & d & _ & _ & _ & cs & Hcs & _).
    eauto.
Qed.

Lemma fitted_node kmeans P s k :
  fitted kmeans P s -> is_Some (nx.node (graph s) !! k) <-> (k <= _current_index s)%nat.
Proof.
  intros Hf. split.
  - intros [a Ha]. destruct (decide (k <= _current_index s)%nat) as [| Hgt]; [done |].
    destruct Hf as (_ & Hfr & _). destruct (Hfr k) as [_ Hn]; [lia |]. congruence.
  - intros Hk. destruct (fitted_call _ P s k Hf Hk) as (nf & d & _ & _ & Hn & _). exact Hn.
Qed.

(** The log has one entry per node. *)
Lemma fitted_log_unique kmeans P s k (nf : list feature) d nf' d' :
  fitted kmeans P s -> (k, nf, d) ∈ fit_log s -> (k, nf', d') ∈ fit_log s -> nf = nf' /\ d = d'.
Proof.
  intros (_ & _ & Hmap & _) H1 H2.
  assert (Hnd : NoDup (map (fun e : nat * list feature * nat => e.1.1) (fit_log s))).
  { rewrite Hmap. apply NoDup_seq. }
  apply list_elem_of_lookup in H1 as [i Hi]. apply list_elem_of_lookup in H2 as [j Hj].
  assert (i = j).
  { rewrite map_fmap in Hnd. eapply NoDup_lookup; [exact Hnd | |].
    - rewrite list_lookup_fmap, Hi. reflexivity.
    - rewrite list_lookup_fmap, Hj. reflexivity. }
  subst j. rewrite Hi in Hj. by injection Hj as -> ->.
Qed.

Lemma fitted_children kmeans P s u cs :
  fitted kmeans P s -> nx.succ (graph s) !! u = Some cs ->
  exists fs d, (u, fs, d) ∈ fit_log s /\ (d <= depth s)%nat /\
    (if is_leaf_call s (length fs) d then cs = []
     else length cs = n_branches s /\ routed kmeans s fs d cs) /\
    children_ok P s u d cs.
Proof.
  intros Hf Hcs. assert (Hu : (u <= _current_index s)%nat).
  { apply (fitted_succ _ P s u Hf). eauto. }
  destruct (fitted_call _ P s u Hf Hu) as (nf & d & Hin & Hd & _ & cs' & Hcs' & Hleaf & Hch).
  assert (cs' = cs) as -> by congruence. eauto 10.
Qed.

Lemma demo_kmeans_ok (P : feature -> Prop) :
  (forall q, P [q]) -> kmeans_ok demo.kmeans 2 P.
Proof.
  intros HP fs _ _. unfold demo.kmeans. cbn [fst snd].
  split; [by rewrite !length_map |]. split; [| split; [reflexivity |]].
  - apply Forall_forall. intros l Hl. rewrite map_fmap in Hl.
    apply list_elem_of_fmap in Hl as (x & -> & _). destruct (Qle_bool _ _); lia.
  - repeat constructor; apply HP.
Qed.

(** C6. On a new object [fit] completes, and the nodes of the graph, in
    the order of their creation, are 0, 1, ..., [_current_index]: the ids
    are the contiguous range below the number of nodes, without duplicates
    and with the root first. The k-th invocation of [fit] is the one for
    node k (a child receives the next value of the counter and is entered
    before the next child is created), and every edge leads to a node
    created after its source. *)
Theorem fit_node_ids_contiguous :
  forall (kmeans : nat -> list feature -> list nat * list (list Q))
         (ds : Dataset.t) (n dep : nat),
    kmeans_ok kmeans n (fun _ => True) ->
    let s := (fit kmeans (init ds n dep)).2 in
    let total_nodes := S (_current_index s) in
    (fit kmeans (init ds n dep)).1 = Ret tt /\
    nx.node_order (graph s) = seq 0 total_nodes /\
    NoDup (nx.node_order (graph s)) /\
    (forall k, k ∈ dom (nx.node (graph s)) <-> (k < total_nodes)%nat) /\
    map (fun e => e.1.1) (fit_log s) = seq 0 total_nodes /\
    (forall u cs v, nx.succ (graph s) !! u = Some cs -> v ∈ cs ->
                    (u < v < total_nodes)%nat).
Proof.
  intros kmeans ds n dep Hk s total_nodes.
  destruct (fit_fitted kmeans (fun _ => True) ds n dep Hk) as (Hret & Hf & _);
    [by apply Forall_forall |].
  fold s in Hf. split; [exact Hret |].
  pose proof Hf as (Hord & Hfr & Hmap & Hok).
  split; [exact Hord |]. split; [rewrite Hord; apply NoDup_seq |].
  split. { intros k. rewrite elem_of_dom, (fitted_node _ _ s k Hf). unfold total_nodes. lia. }
  split; [exact Hmap |].
  intros u cs v Hcs Hv.
  destruct (fitted_children _ _ s u cs Hf Hcs) as (nf & d & _ & _ & _ & _ & Hch).
  destruct (Hch v Hv) as [Hr _]. unfold total_nodes. lia.
Qed.

Lemma fit_node_ids_contiguous_witness :
  let s := (fit demo.kmeans (init demo.corpus 2 2)).2 in
  let total_nodes := S (_current_index s) in
  (fit demo.kmeans (init demo.corpus 2 2)).1 = Ret tt /\
  nx.node_order (graph s) = seq 0 total_nodes /\
  NoDup (nx.node_order (graph s)) /\
  (forall k, k ∈ dom (nx.node (graph s)) <-> (k < total_nodes)%nat) /\
  map (fun e => e.1.1) (fit_log s) = seq 0 total_nodes /\
  (forall u cs v, nx.succ (graph s) !! u = Some cs -> v ∈ cs ->
                  (u < v < total_nodes)%nat).
Proof.
  apply (fit_node_ids_contiguous demo.kmeans demo.corpus 2 2).
  apply demo_kmeans_ok. done.
Defined.

(** C5. For a branching factor of at least 1 (whatever the depth and the
    features), [fit] completes on a new object and every node has exactly
    one invocation [(node, features, current_depth)]: the root is entered
    with all the features at depth 0, and the i-th child of a node is
    entered one level below it with the features that the clustering of
    the features of the node labels [i]. The node of an invocation has no
    child or [n_branches] distinct children, and it has no child if and
    only if its depth is the maximum depth or it received fewer than
    [n_branches] features. *)
Theorem fit_branching :
  forall (kmeans : nat -> list feature -> list nat * list (list Q))
         (ds : Dataset.t) (n dep : nat),
    (1 <= n)%nat ->
    kmeans_ok kmeans n (fun _ => True) ->
    let s := (fit kmeans (init ds n dep)).2 in
    (fit kmeans (init ds n dep)).1 = Ret tt /\
    head (fit_log s) = Some (0%nat, extract_features None (init ds n dep), 0%nat) /\
    map (fun e => e.1.1) (fit_log s) = nx.node_order (graph s) /\
    forall node features d, (node, features, d) ∈ fit_log s ->
      exists cs, nx.succ (graph s) !! node = Some cs /\
        NoDup cs /\
        (cs = [] \/ length cs = n) /\
        (cs = [] <-> (d = dep \/ length features < n)%nat) /\
        (cs <> [] ->
         exists children,
           group features (kmeans n features).1 (replicate n []) = Ret children /\
           Forall2 (fun child child_features => (child, child_features, S d) ∈ fit_log s)
             cs children).
Proof.
  intros kmeans ds n dep Hn Hk s.
  destruct (fit_fitted kmeans (fun _ => True) ds n dep Hk) as (Hret & Hf & Hst & Hhd & _);
    [by apply Forall_forall |].
  fold s in Hf, Hst, Hhd. split; [exact Hret |]. split; [exact Hhd |].
  pose proof Hf as (Hord & Hfr & Hmap & Hok).
  split; [by rewrite Hord |].
  intros node fs d Hin.
  eapply Forall_forall in Hok; [| exact Hin].
  destruct Hok as (Hd & _ & cs & Hcs & Hleaf & Hnd & Hch).
  assert (Hdep : depth s = dep) by (unfold static in Hst; congruence).
  assert (Hnb : n_branches s = n) by (unfold static in Hst; congruence).
  exists cs. split; [exact Hcs |]. split; [exact Hnd |].
  unfold is_leaf_call, routed in Hleaf. rewrite Hdep, Hnb in *.
  destruct (Nat.leb_spec dep d) as [E1 | E1];
    destruct (Nat.ltb_spec (length fs) n) as [E2 | E2]; simpl in Hleaf.
  - subst cs. split; [by left |]. split; [split; [intros _; left; lia | done] | done].
  - subst cs. split; [by left |]. split; [split; [intros _; left; lia | done] | done].
  - subst cs. split; [by left |]. split; [split; [intros _; by right | done] | done].
  - destruct Hleaf as [Hlen Hroute]. split; [by right |]. split.
    + split; [intros ->; simpl in Hlen; lia | lia].
    + intros _. exact Hroute.
Qed.

Lemma fit_branching_witness :
  let s := (fit demo.kmeans (init demo.corpus 2 2)).2 in
  (fit demo.kmeans (init demo.corpus 2 2)).1 = Ret tt /\
  head (fit_log s) = Some (0%nat, extract_features None (init demo.corpus 2 2), 0%nat) /\
  map (fun e => e.1.1) (fit_log s) = nx.node_order (graph s) /\
  forall node features d, (node, features, d) ∈ fit_log s ->
    exists cs, nx.succ (graph s) !! node = Some cs /\
      NoDup cs /\
      (cs = [] \/ length cs = 2%nat) /\
      (cs = [] <-> (d = 2 \/ length features < 2)%nat) /\
      (cs <> [] ->
       exists children,
         group features (demo.kmeans 2 features).1 (replicate 2 []) = Ret children /\
         Forall2 (fun child child_features => (child, child_features, S d) ∈ fit_log s)
           cs children).
Proof.
  apply (fit_branching demo.kmeans demo.corpus 2 2).
  - lia.
  - apply demo_kmeans_ok. done.
Defined.

(** * Routing on the tree built by fit *)

Lemma fitted_skeleton kmeans P s s' : skeleton s = skeleton s' -> fitted kmeans P s' -> fitted kmeans P s.
Proof.
  unfold skeleton. intros [= Hds Hnb Hdep Htree Hnodes Hci Hord Hsucc Hdom Hlog].
  assert (Hnode : forall k, is_Some (nx.node (graph s) !! k) <-> is_Some (nx.node (graph s') !! k)).
  { intros k. by rewrite <- !elem_of_dom, Hdom. }
  intros (Ho & Hfr & Hmap & Hok). unfold fitted. rewrite Hord, Hci, Hlog.
  split; [exact Ho |]. split; [| split; [exact Hmap |]].
  - intros k Hk. destruct (Hfr k Hk) as [H1 H2]. rewrite Hsucc. split; [exact H1 |].
    apply eq_None_not_Some. rewrite Hnode, H2. by intros [? ?].
  - eapply Forall_impl; [exact Hok |]. intros [[k nf] d] (Hd & Hn & cs & Hcs & Hleaf & Hnd & Hch).
    unfold call_ok, children_ok, routed, is_leaf_call in *.
    rewrite Hdep, Hnb, Hsucc, Hnodes, Hci, Hlog, Hnode.
    split; [exact Hd |]. split; [exact Hn |]. exists cs. split; [exact Hcs |].
    split; [exact Hleaf |]. split; [exact Hnd | exact Hch].
Qed.

Lemma descend_fitted kmeans dim s f :
  fitted kmeans (has_dim dim) s -> length f = dim ->
  forall fuel node path,
    (node <= _current_index s)%nat -> (_current_index s - node < fuel)%nat ->
    exists leaf extra,
      descend fuel s f node path = Ret (leaf, path ++ extra) /\
      nx.succ (graph s) !! leaf = Some [] /\
      Forall (fun x => node < x <= _current_index s)%nat extra /\
      ((extra = [] /\ leaf = node) \/
       (exists parent cs, nx.succ (graph s) !! parent = Some cs /\ leaf ∈ cs /\
                          leaf ∈ extra /\ last extra = last cs)).
Proof.
  intros Hf Hlen. induction fuel as [| fuel IH]; intros node path Hn Hfuel; [lia |].
  destruct (proj2 (fitted_succ _ _ s node Hf) Hn) as [cs Hcs].
  destruct (decide (cs = [])) as [-> | Hne].
  { exists node, []. rewrite app_nil_r.
    split; [cbn [descend]; unfold nx.out_degree; by rewrite Hcs |].
    split; [exact Hcs |]. split; [constructor |]. by left. }
  destruct (fitted_children _ _ s node cs Hf Hcs) as (nf & d & _ & _ & _ & _ & Hch).
  assert (Hc : centres_match s f cs).
  { intros x Hx. destruct (Hch x Hx) as (_ & (v & Hv & Hd) & _). exists v. split; [done |].
    unfold has_dim in Hd. congruence. }
  rewrite (descend_step _ _ _ _ _ _ Hcs Hne).
  destruct (scan_first_nearest s f cs node path Hne Hc) as (i & best & Hrun & Hi & _).
  rewrite Hrun. cbn [mbind outcome_bind].
  assert (Hbest : best ∈ cs) by (eapply list_elem_of_lookup_2, Hi).
  destruct (Hch best Hbest) as (Hr & _).
  destruct (IH best (path ++ cs)) as (leaf & extra & Hd & Hleaf & Hall & Hlast); [lia | lia |].
  exists leaf, (cs ++ extra). rewrite app_assoc. split; [exact Hd |]. split; [exact Hleaf |].
  split.
  { apply Forall_app. split.
    - apply Forall_forall. intros x Hx. by destruct (Hch x Hx) as (? & _).
    - eapply Forall_impl; [exact Hall |]. simpl. intros x Hx. lia. }
  right. destruct Hlast as [[-> ->] | (parent & cs' & Hp & Hlcs & Hle & Hl)].
  - exists node, cs. rewrite app_nil_r. done.
  - exists parent, cs'. split; [exact Hp |]. split; [exact Hlcs |].
    split; [apply elem_of_app; by right |].
    rewrite <- Hl. destruct extra as [| e extra] using rev_ind; [by apply elem_of_nil in Hle |].
    by rewrite app_assoc, !last_snoc.
Qed.

Lemma propagate_feature_fitted kmeans dim s f start :
  fitted kmeans (has_dim dim) s -> length f = dim -> (start <= _current_index s)%nat ->
  exists leaf extra,
    propagate_feature s f start = Ret (start :: extra) /\
    nx.succ (graph s) !! leaf = Some [] /\
    Forall (fun x => start < x <= _current_index s)%nat extra /\
    ((extra = [] /\ leaf = start) \/
     (exists parent cs, nx.succ (graph s) !! parent = Some cs /\ leaf ∈ cs /\
                        leaf ∈ extra /\ last extra = last cs)).
Proof.
  intros Hf Hlen Hs. unfold propagate_feature.
  destruct (descend_fitted _ dim s f Hf Hlen (S (length (nx.node_order (graph s)))) start [start])
    as (leaf & extra & Hd & H); [done | |].
  { destruct Hf as (-> & _). rewrite length_seq. lia. }
  exists leaf, extra. rewrite Hd. done.
Qed.

Lemma fit_then_fitted kmeans ds n dep dim s :
  kmeans_ok kmeans n (has_dim dim) ->
  Forall (has_dim dim) (extract_features None (init ds n dep)) ->
  skeleton s = skeleton (fit kmeans (init ds n dep)).2 ->
  fitted kmeans (has_dim dim) s /\ static s = (ds, n, dep).
Proof.
  intros Hk HP Hsk. destruct (fit_fitted kmeans _ ds n dep Hk HP) as (_ & Hf & Hst & _).
  split; [by eapply fitted_skeleton |].
  rewrite <- Hst. unfold skeleton in Hsk. unfold static. congruence.
Qed.




Lemma visit_run node image_id t :
  is_Some (nx.node (graph t) !! node) ->
  (visit node image_id t).1 = Ret tt /\
  skeleton (visit node image_id t).2 = skeleton t /\
  forall k, visit_count (visit node image_id t).2 k image_id =
            (visit_count t k image_id + (if decide (k = node) then 1 else 0))%nat.
Proof.
  intros [files Hn]. unfold visit, mbind, M_bind, get. rewrite Hn. cbn [modify fst snd].
  split; [reflexivity |]. split; [apply set_attrs_skeleton; rewrite Hn; eauto |].
  intros k. unfold visit_count. cbn [graph set_graph nx.set_node nx.node].
  destruct (decide (k = node)) as [-> | Hne].
  - rewrite lookup_insert_eq, Hn. cbn [nx.visits]. rewrite lookup_insert_eq.
    destruct (nx.visits files !! image_id); simpl; lia.
  - rewrite lookup_insert_ne by done. lia.
Qed.

Lemma visits_run image_id path : forall t,
  Forall (fun x => is_Some (nx.node (graph t) !! x)) path ->
  (for_ path (fun node => visit node image_id) t).1 = Ret tt /\
  skeleton (for_ path (fun node => visit node image_id) t).2 = skeleton t /\
  forall k, visit_count (for_ path (fun node => visit node image_id) t).2 k image_id =
            (visit_count t k image_id + count_occ Nat.eq_dec path k)%nat.
Proof.
  induction path as [| x path IH]; intros t Hall.
  - simpl. repeat split. intros k. lia.
  - apply Forall_cons in Hall as [Hx Hall].
    destruct (visit_run x image_id t Hx) as (Hr & Hsk & Hc).
    cbn [for_]. unfold mbind, M_bind.
    destruct (visit x image_id t) as [o t'] eqn:E. simpl in Hr, Hsk, Hc. subst o.
    destruct (IH t') as (Hr' & Hsk' & Hc').
    { eapply Forall_impl; [exact Hall |]. intros y Hy. simpl in Hy.
      rewrite <- elem_of_dom in *. unfold skeleton in Hsk. congruence. }
    split; [exact Hr' |]. split; [congruence |].
    intros k. rewrite Hc', Hc. simpl. destruct (Nat.eq_dec x k), (decide (k = x)); lia.
Qed.

Lemma propagate_body_run t f image_id path :
  propagate_feature t f 0 = Ret path ->
  (self ← get; path ← lift (propagate_feature self f 0);
   for_ path (fun node => visit node image_id)) t =
  for_ path (fun node => visit node image_id) t.
Proof. intros H. unfold mbind, M_bind, get, lift. by rewrite H. Qed.

Lemma propagate_fitted kmeans dim s image :
  fitted kmeans (has_dim dim) s ->
  Forall (has_dim dim) (Dataset.extract_features (dataset s) image) ->
  (propagate image s).1 = Ret tt /\
  skeleton (propagate image s).2 = skeleton s /\
  visit_count (propagate image s).2 0 (Dataset.get_image_id (dataset s) image) =
    (visit_count s 0 (Dataset.get_image_id (dataset s) image) +
     length (Dataset.extract_features (dataset s) image))%nat.
Proof.
  intros Hf Hdim. unfold propagate, mbind at 1, M_bind at 1, get at 1.
  cbn [extract_features].
  set (id := Dataset.get_image_id (dataset s) image).
  set (body := fun feature : feature => _).
  destruct (for_complete
              (fun done t => skeleton t = skeleton s /\
                             visit_count t 0 id = (visit_count s 0 id + length done)%nat)
              (Dataset.extract_features (dataset s) image) body s) as (Hr & Hsk & Hc).
  - split; [reflexivity | simpl; lia].
  - intros done f rest t Hsplit [Hsk Hc].
    assert (Hft : fitted kmeans (has_dim dim) t) by (by eapply fitted_skeleton).
    assert (Hfd : length f = dim).
    { rewrite Hsplit in Hdim. apply Forall_app in Hdim as [_ Hd].
      by apply Forall_cons in Hd as [Hd _]. }
    destruct (propagate_feature_fitted _ dim t f 0 Hft Hfd) as (leaf & extra & Hrun & _ & Hall & _);
      [lia |].
    subst body. cbn beta. rewrite (propagate_body_run _ _ _ _ Hrun).
    destruct (visits_run id (0%nat :: extra) t) as (Hr' & Hsk' & Hc').
    { constructor.
      - apply (fitted_node _ _ t 0 Hft). lia.
      - eapply Forall_impl; [exact Hall |]. intros x Hx. simpl in Hx.
        apply (fitted_node _ _ t x Hft). lia. }
    split; [exact Hr' |]. split; [congruence |].
    rewrite Hc', Hc, length_app. cbn [count_occ length].
    destruct (Nat.eq_dec 0 0) as [_ | ?]; [| done].
    rewrite (proj1 (count_occ_not_In Nat.eq_dec extra 0%nat)); [lia |].
    intros Hin. apply list_elem_of_In in Hin. eapply Forall_forall in Hall; [| exact Hin].
    simpl in Hall. lia.
  - split; [exact Hr |]. split; [exact Hsk |]. exact Hc.
Qed.



(** * The weights of the index *)

Lemma Forall_foldl_app {A B} (P : B -> Prop) (g : A -> list B) (l : list A) : forall acc,
  Forall P (foldl (fun acc p => acc ++ g p) acc l) ->
  Forall P acc /\ forall p, p ∈ l -> Forall P (g p).
Proof.
  induction l as [| x l IH]; intros acc H; simpl in H.
  - split; [exact H |]. intros p Hp. by apply elem_of_nil in Hp.
  - apply IH in H as [Hacc Hl]. apply Forall_app in Hacc as [Hacc Hx].
    split; [exact Hacc |]. intros p Hp. apply elem_of_cons in Hp as [-> | Hp]; auto.
Qed.

Lemma visit_no_weights n i : preserves no_weights (visit n i).
Proof.
  intros s H. unfold visit, mbind, M_bind, get.
  destruct (nx.node (graph s) !! n) as [a |] eqn:E; [| exact H].
  cbn [modify snd]. intros k files. cbn [graph set_graph nx.set_node nx.node].
  destruct (decide (n = k)) as [<- | Hne].
  - rewrite lookup_insert_eq. intros [= <-]. simpl. by apply (H n).
  - rewrite lookup_insert_ne by done. apply H.
Qed.

Lemma propagate_no_weights p : preserves no_weights (propagate p).
Proof.
  unfold propagate. apply preserves_bind; [apply preserves_get |]. intros self.
  apply preserves_for. intros f.
  apply preserves_bind; [apply preserves_get |]. intros self'.
  apply preserves_bind; [apply preserves_lift |]. intros path.
  apply preserves_for. intros n. apply visit_no_weights.
Qed.

(** The first loop of [index]. *)
Lemma index_images_run kmeans dim (parallel : bool) (images : list string) : forall s,
  fitted kmeans (has_dim dim) s -> no_weights s ->
  (forall image, image ∈ images ->
     Forall (has_dim dim) (Dataset.extract_features (dataset s) image)) ->
  (for_ images (fun image_path => if parallel then (mret tt : M unit) else propagate image_path) s).1
    = Ret tt /\
  skeleton (for_ images (fun image_path =>
              if parallel then (mret tt : M unit) else propagate image_path) s).2 = skeleton s /\
  no_weights (for_ images (fun image_path =>
                if parallel then (mret tt : M unit) else propagate image_path) s).2.
Proof.
  induction images as [| image images IH]; intros s Hf Hw Hdim; [done |].
  cbn [for_]. unfold mbind, M_bind.
  destruct parallel.
  - cbn [mret M_ret]. apply IH; [done | done |].
    intros i Hi. apply Hdim. by apply list_elem_of_further.
  - destruct (propagate_fitted _ dim s image Hf) as (Hr & Hsk & _);
      [apply Hdim, list_elem_of_here |].
    pose proof (propagate_no_weights image s Hw) as Hw'.
    destruct (propagate image s) as [o t]. simpl in Hr, Hsk, Hw'. subst o.
    assert (Hds : dataset t = dataset s) by (unfold skeleton in Hsk; congruence).
    destruct (IH t) as (Hr' & Hsk' & Hw''); [by eapply fitted_skeleton | done | |].
    { intros i Hi. rewrite Hds. apply Hdim. by apply list_elem_of_further. }
    split; [exact Hr' |]. split; [congruence | exact Hw''].
Qed.

Lemma weigh_node_run N x t (s : CBIR) (done : list nat) :
  x ∉ done ->
  (forall k, nx.node (graph t) !! k =
     (fun a => {| nx.visits := nx.visits a;
                  nx.w := if bool_decide (k ∈ done) then idf N a else None |})
       <$> nx.node (graph s) !! k) ->
  (weigh_node N x t).1 = Ret tt /\
  (forall k, nx.node (graph (weigh_node N x t).2) !! k =
     (fun a => {| nx.visits := nx.visits a;
                  nx.w := if bool_decide (k ∈ done ++ [x]) then idf N a else None |})
       <$> nx.node (graph s) !! k).
Proof.
  intros Hx Hinv.
  assert (Hother : forall k, k <> x -> bool_decide (k ∈ done ++ [x]) = bool_decide (k ∈ done)).
  { intros k Hk. apply bool_decide_ext. rewrite elem_of_app, list_elem_of_singleton. tauto. }
  assert (Hself : bool_decide (x ∈ done ++ [x]) = true).
  { apply bool_decide_eq_true. apply elem_of_app. right. apply list_elem_of_here. }
  unfold weigh_node, mbind, M_bind, get.
  pose proof (Hinv x) as Hxt. rewrite bool_decide_eq_false_2 in Hxt by done.
  destruct (nx.node (graph s) !! x) as [a |] eqn:Ea; simpl in Hxt; rewrite Hxt.
  - unfold nx.attrs_len. cbn [nx.visits nx.w]. rewrite Nat.add_0_r.
    destruct (size (nx.visits a)) as [| m] eqn:Esz.
    + split; [reflexivity |]. cbn [mret M_ret snd]. intros k.
      destruct (decide (k = x)) as [-> | Hk].
      * rewrite Hxt, Ea, Hself. cbn [fmap option_fmap option_map]. unfold idf. by rewrite Esz.
      * rewrite Hinv, Hother by done. reflexivity.
    + unfold set_weight, mbind, M_bind, get. rewrite Hxt. cbn [modify fst snd].
      split; [reflexivity |]. intros k. cbn [graph set_graph nx.set_node nx.node nx.visits].
      destruct (decide (k = x)) as [-> | Hk].
      * rewrite lookup_insert_eq, Ea, Hself. cbn [fmap option_fmap option_map]. unfold idf.
        by rewrite Esz.
      * rewrite lookup_insert_ne, Hinv, Hother by done. reflexivity.
  - split; [reflexivity |]. cbn [mret M_ret snd]. intros k.
    destruct (decide (k = x)) as [-> | Hk].
    + rewrite Hxt, Ea. reflexivity.
    + rewrite Hinv, Hother by done. reflexivity.
Qed.

(** The second loop of [index], over distinct nodes of an object without
    weights. *)
Lemma index_weights_run N l s :
  NoDup l -> no_weights s ->
  (for_ l (weigh_node N) s).1 = Ret tt /\
  forall k, nx.node (graph (for_ l (weigh_node N) s).2) !! k =
    (fun a => {| nx.visits := nx.visits a;
                 nx.w := if bool_decide (k ∈ l) then idf N a else None |})
      <$> nx.node (graph s) !! k.
Proof.
  intros Hnd Hw.
  pose (I := fun (done : list nat) (t : CBIR) => forall k, nx.node (graph t) !! k =
           (fun a => {| nx.visits := nx.visits a;
                        nx.w := if bool_decide (k ∈ done) then idf N a else None |})
             <$> nx.node (graph s) !! k).
  apply (for_complete I); unfold I.
  - intros k. destruct (nx.node (graph s) !! k) as [a |] eqn:E; [| reflexivity].
    simpl. f_equal. destruct a as [v w]. simpl. f_equal. exact (Hw k _ E).
  - intros done x rest t Hsplit Hinv. apply weigh_node_run; [| exact Hinv].
    rewrite Hsplit in Hnd. apply NoDup_app in Hnd as (_ & Hnd & _).
    intros Hin. apply (Hnd x Hin). apply list_elem_of_here.
Qed.

Lemma index_run (parallel : bool) s t :
  for_ (Dataset.all_images (dataset s))
    (fun image_path => if parallel then (mret tt : M unit) else propagate image_path) s = (Ret tt, t) ->
  index parallel s =
    for_ (nx.node_order (graph t)) (weigh_node (Dataset.len (dataset t))) t.
Proof. intros H. unfold index, mbind, M_bind, get. by rewrite H. Qed.

Lemma Q2R_of_nat n : Q2R (Q_of_nat n) = INR n.
Proof. unfold Q_of_nat, Q2R. simpl. rewrite INR_IZR_INZ. lra. Qed.

Lemma weight_R_log N N_i :
  N_i <> 0%nat -> weight_R (Log (Q_of_nat N / Q_of_nat N_i)) = ln (INR N / INR N_i).
Proof.
  intros H. unfold weight_R. rewrite Q2R_div, !Q2R_of_nat; [reflexivity |].
  by rewrite Q_of_nat_zero_iff.
Qed.




(** * The score of two images *)

Lemma Qmult_comm_eq (x y : Q) : (x * y)%Q = (y * x)%Q.
Proof. unfold Qmult. by rewrite Z.mul_comm, Pos.mul_comm. Qed.

Lemma fmul_comm a b : fmul a b = fmul b a.
Proof.
  destruct a, b; simpl; try reflexivity; try (by rewrite Qmult_comm_eq);
    by rewrite Z.mul_comm.
Qed.

Lemma zip_with_fmul_comm d : forall q, zip_with fmul d q = zip_with fmul q d.
Proof.
  induction d as [| x d IH]; intros [| y q]; simpl; try reflexivity.
  by rewrite fmul_comm, IH.
Qed.

Lemma score_vectors_comm d q : score_vectors d q = score_vectors q d.
Proof. unfold score_vectors. by rewrite zip_with_fmul_comm. Qed.

Lemma tfidf_nil s i j : tfidf s i = [] -> tfidf s j = [].
Proof.
  unfold tfidf. intros H. apply (f_equal length) in H. rewrite length_map in H.
  simpl in H. apply length_zero_iff_nil in H. by rewrite H.
Qed.

(** [encode] raises exactly when the graph has no node, whatever the
    image. *)
Lemma encode_vector_cases s :
  (forall i, encode_vector s i = Raise IndexError) \/
  (forall i, exists v, encode_vector s i = Ret v /\
                       length v = length (nx.nodes_data (graph s))).
Proof.
  destruct (nx.nodes_data (graph s)) as [| x l] eqn:E.
  - left. intros i. unfold encode_vector. rewrite encode_unfold.
    unfold tfidf. rewrite E. reflexivity.
  - right. intros i. unfold encode_vector. rewrite encode_unfold.
    destruct (map Q_of_nat (tfidf s i)) as [| y l'] eqn:E'.
    + apply (f_equal length) in E'. rewrite length_map, tfidf_length, E in E'. discriminate.
    + rewrite <- E'. cbn [mbind outcome_bind]. eexists. split; [reflexivity |].
      by rewrite !length_map, tfidf_length, E.
Qed.

Lemma score_comm s a b : score s a b = score s b a.
Proof.
  unfold score.
  destruct (encode_vector_cases s) as [H | H].
  - by rewrite !H.
  - destruct (H (Dataset.get_image_id (dataset s) a)) as (va & -> & _).
    destruct (H (Dataset.get_image_id (dataset s) b)) as (vb & -> & _).
    cbn [mbind outcome_bind]. by rewrite score_vectors_comm.
Qed.

(** X1. [score] is symmetric in its two images, for every state: the same
    number, or the same exception when the graph has no node. *)
Theorem score_symmetric :
  forall (s : CBIR) (a b : string), score s a b = score s b a.
Proof. intros s a b. apply score_comm. Qed.

(** The vector of an image whose visit counts add up to 0. *)
Lemma encode_vector_unvisited s i :
  nx.nodes_data (graph s) <> [] -> total_visits s i = 0%nat ->
  encode_vector s i = Ret (replicate (length (nx.nodes_data (graph s))) NaN).
Proof.
  intros Hne Hun. unfold encode_vector. rewrite encode_unfold.
  rewrite (sum_list_zero _ Hun), tfidf_length.
  assert (Hlen : length (nx.nodes_data (graph s)) <> 0%nat).
  { destruct (nx.nodes_data (graph s)); [done | simpl; lia]. }
  revert Hlen. generalize (length (nx.nodes_data (graph s))). intros n Hn.
  rewrite map_replicate_zero.
  assert (Hb : Qeq_bool (norm_l1 (replicate n (Q_of_nat 0))) 0 = true).
  { apply Qeq_bool_iff, norm_l1_zeros. }
  revert Hb. generalize (norm_l1 (replicate n (Q_of_nat 0))). intros q Hq.
  destruct n as [| m]; [done |]. cbn [replicate map mbind outcome_bind].
  rewrite (fdiv_zero_zero q Hq). do 2 f_equal.
  induction m as [| m IH]; cbn [replicate map]; [reflexivity |].
  by rewrite (fdiv_zero_zero q Hq), IH.
Qed.

Lemma fmul_NaN_r x : fmul x NaN = NaN.
Proof. by destruct x. Qed.

Lemma zip_with_fmul_NaN d : forall n,
  length d = n -> zip_with fmul d (replicate n NaN) = replicate n NaN.
Proof.
  induction d as [| x d IH]; intros [| n] H; simpl in *; try done.
  rewrite fmul_NaN_r, IH by lia. reflexivity.
Qed.

Lemma score_vectors_NaN d n :
  length d = S n -> score_vectors d (replicate (S n) NaN) = NaN.
Proof.
  intros H. unfold score_vectors. rewrite zip_with_fmul_NaN by done. reflexivity.
Qed.

Lemma score_unvisited s a b :
  nx.nodes_data (graph s) <> [] ->
  total_visits s (Dataset.get_image_id (dataset s) b) = 0%nat ->
  score s a b = Ret NaN.
Proof.
  intros Hne Hun.
  unfold score. rewrite (encode_vector_unvisited _ _ Hne Hun).
  destruct (encode_vector_cases s) as [H | H].
  - exfalso. specialize (H (Dataset.get_image_id (dataset s) b)).
    rewrite (encode_vector_unvisited _ _ Hne Hun) in H. discriminate.
  - destruct (H (Dataset.get_image_id (dataset s) a)) as (va & -> & Hl).
    cbn [mbind outcome_bind]. f_equal.
    destruct (nx.nodes_data (graph s)) as [| x l]; [done |]. simpl length in *.
    by apply score_vectors_NaN.
Qed.



(** The vector of an image with a recorded visit. *)
Lemma encode_vector_visited s i :
  (0 < total_visits s i)%nat ->
  encode_vector s i =
    Ret (map (fun c => Fin (Q_of_nat c / norm_l1 (map Q_of_nat (tfidf s i)))) (tfidf s i)).
Proof.
  intros Hpos. unfold encode_vector, total_visits in *. rewrite encode_unfold.
  set (l := tfidf s i) in *.
  assert (Hn : (norm_l1 (map Q_of_nat l) == Q_of_nat (sum_list l))%Q) by apply norm_l1_nat.
  assert (Hb : Qeq_bool (norm_l1 (map Q_of_nat l)) 0 = false).
  { apply not_true_is_false. intros Hb. apply Qeq_bool_eq in Hb.
    rewrite Hn in Hb. apply Q_of_nat_zero_iff in Hb. lia. }
  destruct (map Q_of_nat l) eqn:El.
  { destruct l; [simpl in Hpos; lia | discriminate]. }
  rewrite <- El in *. clear El. cbn [mbind outcome_bind]. f_equal.
  rewrite map_map. apply map_ext. intros c. unfold fdiv. by rewrite Hb.
Qed.

Lemma Q_of_nat_le a b : (a <= b)%nat -> (Q_of_nat a <= Q_of_nat b)%Q.
Proof. intros H. unfold Q_of_nat, Qle. simpl. lia. Qed.

Lemma elem_le_sum_list (l : list nat) c : c ∈ l -> (c <= sum_list l)%nat.
Proof.
  induction l as [| x l IH]; intros H; [by apply elem_of_nil in H |].
  apply elem_of_cons in H as [-> | H]; simpl; [lia |]. specialize (IH H). lia.
Qed.

(** The entries of the vector of a visited image, as rationals. *)
Lemma tfidf_fractions s i :
  (0 < total_visits s i)%nat ->
  let p := map (fun c => Q_of_nat c / norm_l1 (map Q_of_nat (tfidf s i)))%Q (tfidf s i) in
  encode_vector s i = Ret (map Fin p) /\
  length p = length (nx.nodes_data (graph s)) /\
  Forall unit_interval p /\
  (Qsum p == 1)%Q.
Proof.
  intros Hpos p. split; [| split; [| split]].
  - rewrite (encode_vector_visited _ _ Hpos). unfold p. by rewrite map_map.
  - unfold p. by rewrite length_map, tfidf_length.
  - unfold p, total_visits in *. set (l := tfidf s i) in *.
    assert (Hn : (norm_l1 (map Q_of_nat l) == Q_of_nat (sum_list l))%Q) by apply norm_l1_nat.
    assert (HT : (0 < Q_of_nat (sum_list l))%Q).
    { unfold Q_of_nat, Qlt. simpl. lia. }
    apply Forall_forall. intros q Hq. rewrite map_fmap in Hq.
    apply list_elem_of_fmap in Hq as (c & -> & Hc). unfold unit_interval.
    rewrite Hn. split.
    + apply Qle_shift_div_l; [exact HT |]. rewrite Qmult_0_l. apply Q_of_nat_nonneg.
    + apply Qle_shift_div_r; [exact HT |]. rewrite Qmult_1_l.
      apply Q_of_nat_le, elem_le_sum_list, Hc.
  - unfold p, total_visits in *. set (l := tfidf s i) in *.
    assert (Hn : (norm_l1 (map Q_of_nat l) == Q_of_nat (sum_list l))%Q) by apply norm_l1_nat.
    rewrite <- (map_map Q_of_nat (fun x => x / norm_l1 (map Q_of_nat l))%Q).
    rewrite Qsum_div, Qsum_nat, Hn. apply Qmult_inv_r.
    rewrite Q_of_nat_zero_iff. lia.
Qed.

(** X3. The vector of an image with a recorded visit has one entry per node
    of the graph, and every entry is a finite number between 0 and 1. *)
Theorem encode_entries_in_unit_interval :
  forall (s : CBIR) (image_id : string),
    (0 < total_visits s image_id)%nat ->
    exists v,
      encode s image_id false = Ret (Vector v) /\
      length v = length (nx.nodes_data (graph s)) /\
      Forall (fun x => exists q, x = Fin q /\ (0 <= q <= 1)%Q) v.
Proof.
  intros s i Hpos. destruct (tfidf_fractions s i Hpos) as (He & Hl & Hu & _).
  set (p := map _ (tfidf s i)) in *. exists (map Fin p).
  split; [| split].
  - unfold encode_vector in He. destruct (encode s i false) as [[ns | v] | e |];
      simpl in He; congruence.
  - by rewrite length_map.
  - rewrite map_fmap. apply Forall_fmap. eapply Forall_impl; [exact Hu |].
    intros q Hq. simpl. eauto.
Qed.

Lemma encode_entries_in_unit_interval_witness :
  exists v,
    encode demo.after_index "b.jpg" false = Ret (Vector v) /\
    length v = length (nx.nodes_data (graph demo.after_index)) /\
    Forall (fun x => exists q, x = Fin q /\ (0 <= q <= 1)%Q) v.
Proof. apply (encode_entries_in_unit_interval demo.after_index "b.jpg"). vm_compute. lia. Defined.

Lemma zip_with_fmul_Fin p : forall r,
  zip_with fmul (map Fin p) (map Fin r) = map Fin (zip_with Qmult p r).
Proof. induction p as [| x p IH]; intros [| y r]; simpl; try reflexivity. by rewrite IH. Qed.

Lemma Qsum_unit_nonneg p : Forall unit_interval p -> (0 <= Qsum p)%Q.
Proof.
  induction 1 as [| x p [Hx _] _ IH]; simpl; [apply Qle_refl |].
  change (0 <= x + Qsum p)%Q. Lqa.lra.
Qed.

Lemma Qsum_products_bounds p : forall r,
  Forall unit_interval p -> Forall unit_interval r ->
  (0 <= Qsum (zip_with Qmult p r) <= Qsum p)%Q.
Proof.
  induction p as [| x p IH]; intros r Hp Hr.
  - simpl. split; apply Qle_refl.
  - apply Forall_cons in Hp as [[Hx0 Hx1] Hp]. destruct r as [| y r].
    + simpl. split; [apply Qle_refl |].
      pose proof (Qsum_unit_nonneg p Hp). change (0 <= x + Qsum p)%Q. Lqa.lra.
    + apply Forall_cons in Hr as [[Hy0 Hy1] Hr]. destruct (IH r Hp Hr) as [H0 H1].
      change (0 <= x * y + Qsum (zip_with Qmult p r) <= x + Qsum p)%Q.
      assert (0 <= x * y)%Q by (apply Qmult_le_0_compat; done).
      assert (x * y <= x)%Q by Lqa.nra. split; Lqa.lra.
Qed.

Lemma score_bounded s a b :
  (0 < total_visits s (Dataset.get_image_id (dataset s) a))%nat ->
  (0 < total_visits s (Dataset.get_image_id (dataset s) b))%nat ->
  exists x, score s a b = Ret (Fin x) /\ (0 <= x <= 2)%Q.
Proof.
  intros Ha Hb. unfold score.
  destruct (tfidf_fractions s _ Ha) as (-> & _ & Hpa & Hsa).
  destruct (tfidf_fractions s _ Hb) as (-> & _ & Hpb & _).
  set (p := map _ (tfidf s (Dataset.get_image_id (dataset s) a))) in *.
  set (r := map _ (tfidf s (Dataset.get_image_id (dataset s) b))) in *.
  cbn [mbind outcome_bind]. unfold score_vectors.
  rewrite zip_with_fmul_Fin, np_sum_Fin. cbn [fmul fneg fsub fadd].
  eexists. split; [reflexivity |].
  destruct (Qsum_products_bounds p r Hpa Hpb) as [H0 H1]. rewrite Hsa in H1.
  split; Lqa.lra.
Qed.

(** X4. The score of two images with recorded visits is a finite number
    between 0 and 2. *)
Theorem score_between_0_and_2 :
  forall (s : CBIR) (a b : string),
    (0 < total_visits s (Dataset.get_image_id (dataset s) a))%nat ->
    (0 < total_visits s (Dataset.get_image_id (dataset s) b))%nat ->
    exists x, score s a b = Ret (Fin x) /\ (0 <= x <= 2)%Q.
Proof. intros s a b. apply score_bounded. Qed.

Lemma score_between_0_and_2_witness :
  exists x, score demo.after_index "a.jpg" "b.jpg" = Ret (Fin x) /\ (0 <= x <= 2)%Q.
Proof.
  apply (score_between_0_and_2 demo.after_index "a.jpg" "b.jpg"); vm_compute; lia.
Defined.

(** * What propagate changes *)


Lemma attrs_grow_refl i a : attrs_grow i a a.
Proof. unfold attrs_grow. repeat split; lia. Qed.

Lemma attrs_grow_trans i a b c : attrs_grow i a b -> attrs_grow i b c -> attrs_grow i a c.
Proof.
  intros (Hw & Ho & Hi) (Hw' & Ho' & Hi'). split; [congruence |]. split.
  - intros j Hj. rewrite Ho', Ho by done. reflexivity.
  - lia.
Qed.

Lemma visit_grown i s n : preserves (grown_from i s) (visit n i).
Proof.
  intros t H. unfold visit, mbind, M_bind, get.
  destruct (nx.node (graph t) !! n) as [files |] eqn:E; [| exact H].
  cbn [modify snd]. intros k a Ha. destruct (H k a Ha) as (a' & Ha' & Hg).
  cbn [graph set_graph nx.set_node nx.node].
  destruct (decide (k = n)) as [-> | Hne].
  - rewrite lookup_insert_eq. eexists. split; [reflexivity |].
    assert (a' = files) as -> by congruence.
    apply (attrs_grow_trans _ _ files); [exact Hg |].
    split; [reflexivity |]. cbn [nx.visits]. split.
    + intros j Hj. by rewrite lookup_insert_ne.
    + rewrite lookup_insert_eq. destruct (nx.visits files !! i); simpl; lia.
  - rewrite lookup_insert_ne by done. eauto.
Qed.

Lemma propagate_grown p s :
  grown_from (Dataset.get_image_id (dataset s) p) s (propagate p s).2.
Proof.
  unfold propagate, mbind at 1, M_bind at 1, get at 1.
  apply (preserves_for (grown_from (Dataset.get_image_id (dataset s) p) s)).
  - intros f. apply preserves_bind; [apply preserves_get |]. intros self'.
    apply preserves_bind; [apply preserves_lift |]. intros path.
    apply preserves_for. intros n. apply visit_grown.
  - intros k a Ha. exists a. split; [exact Ha | apply attrs_grow_refl].
Qed.



(** * What encode reads *)

Lemma same_counts_nodes_data P s t :
  same_counts P s t ->
  Forall2 (fun x y => x.1 = y.1 /\ forall j, P j -> nx.visits x.2 !! j = nx.visits y.2 !! j)
    (nx.nodes_data (graph s)) (nx.nodes_data (graph t)).
Proof.
  intros [Ho Hk]. unfold nx.nodes_data. rewrite <- Ho. clear Ho.
  induction (nx.node_order (graph s)) as [| n l IH]; [constructor |].
  cbn [omap list_omap]. specialize (Hk n).
  destruct (nx.node (graph s) !! n) as [a |], (nx.node (graph t) !! n) as [a' |];
    cbn [fmap option_fmap option_map]; try done.
  constructor; [split; [reflexivity | exact Hk] | exact IH].
Qed.

(** [encode] reads the counters of its image, in the order of the nodes,
    and nothing else. *)
Lemma encode_same_counts (P : string -> Prop) s t j rg :
  P j -> same_counts P s t -> encode s j rg = encode t j rg.
Proof.
  intros Hj H. apply same_counts_nodes_data in H.
  assert (Ht : tfidf s j = tfidf t j).
  { unfold tfidf. induction H as [| [k a] [k' a'] l l' [_ Hv] _ IH]; [reflexivity |].
    cbn [map]. simpl in Hv. by rewrite (Hv j Hj), IH. }
  unfold encode. destruct rg.
  - do 2 f_equal. induction H as [| [k a] [k' a'] l l' [Hk Hv] _ IH]; [reflexivity |].
    cbn [omap list_omap]. simpl in Hk, Hv. subst k'. rewrite (Hv j Hj), IH. reflexivity.
  - fold (tfidf s j) (tfidf t j). by rewrite Ht.
Qed.

Lemma grown_same_counts i s t :
  skeleton t = skeleton s -> grown_from i s t -> same_counts (fun j => j <> i) s t.
Proof.
  intros Hsk Hg. split; [unfold skeleton in Hsk; congruence |]. intros k.
  destruct (nx.node (graph s) !! k) as [a |] eqn:Ea.
  - destruct (Hg k a Ea) as (a' & -> & _ & Ho & _). intros j Hj. by rewrite Ho.
  - assert (Hd : dom (nx.node (graph t)) = dom (nx.node (graph s)))
      by (unfold skeleton in Hsk; congruence).
    apply not_elem_of_dom in Ea. rewrite <- Hd in Ea. apply not_elem_of_dom in Ea.
    by rewrite Ea.
Qed.

(** X6. [propagate] of an image leaves the encoding of every other image
    as it was, in both modes of [encode], whatever the state and whatever
    the outcome of [propagate]. *)
Theorem propagate_keeps_other_encodings :
  forall (s : CBIR) (image_path image_id : string) (return_graph : bool),
    image_id <> Dataset.get_image_id (dataset s) image_path ->
    encode (propagate image_path s).2 image_id return_graph = encode s image_id return_graph.
Proof.
  intros s p j rg Hj. symmetry.
  apply (encode_same_counts (fun j => j <> Dataset.get_image_id (dataset s) p)); [exact Hj |].
  apply grown_same_counts; [by apply propagate_skeleton | apply propagate_grown].
Qed.

Lemma propagate_keeps_other_encodings_witness :
  encode (propagate "b.jpg" demo.after_index).2 "a.jpg" false =
  encode demo.after_index "a.jpg" false.
Proof.
  apply (propagate_keeps_other_encodings demo.after_index "b.jpg" "a.jpg" false).
  vm_compute. discriminate.
Defined.

Lemma same_counts_refl P s : same_counts P s s.
Proof. split; [reflexivity |]. intros k. by destruct (nx.node (graph s) !! k). Qed.

Lemma set_weight_same_counts P s n x : preserves (same_counts P s) (set_weight n x).
Proof.
  intros t [Ho Hk]. unfold set_weight, mbind, M_bind, get.
  destruct (nx.node (graph t) !! n) as [files |] eqn:E; [| by split].
  cbn [modify snd]. split; [exact Ho |]. intros k. specialize (Hk k).
  cbn [graph set_graph nx.set_node nx.node].
  destruct (decide (k = n)) as [-> | Hne].
  - rewrite lookup_insert_eq. rewrite E in Hk. exact Hk.
  - by rewrite lookup_insert_ne.
Qed.

Lemma weigh_node_same_counts P s N n : preserves (same_counts P s) (weigh_node N n).
Proof.
  unfold weigh_node. apply preserves_bind; [apply preserves_get |]. intros self.
  destruct (nx.node (graph self) !! n) as [a |]; [| apply preserves_ret].
  destruct (nx.attrs_len a); [apply preserves_ret | apply set_weight_same_counts].
Qed.


(** * An object without a tree, and the constructor *)

Lemma propagate_feature_no_root s f :
  nx.succ (graph s) !! 0%nat = None -> propagate_feature s f 0 = Raise NetworkXError.
Proof.
  intros H. unfold propagate_feature. cbn [descend]. unfold nx.out_degree. by rewrite H.
Qed.

Lemma propagate_no_root s p :
  nx.succ (graph s) !! 0%nat = None ->
  propagate p s =
    (match Dataset.extract_features (dataset s) p with
     | [] => Ret tt
     | _ :: _ => Raise NetworkXError
     end, s).
Proof.
  intros H. unfold propagate, mbind at 1, M_bind at 1, get at 1. cbn [extract_features].
  destruct (Dataset.extract_features (dataset s) p) as [| f fs]; [reflexivity |].
  cbn [for_]. unfold mbind, M_bind, get, lift. by rewrite (propagate_feature_no_root _ _ H).
Qed.

(** X8. On an object whose graph does not hold the root (as before
    [fit]), [propagate] of an image with a feature raises the error of
    [out_degree] on a missing node and changes nothing; an image without
    features is accepted, and changes nothing either. *)
Theorem propagate_before_fit :
  forall (s : CBIR) (image_path : string),
    nx.succ (graph s) !! 0%nat = None ->
    propagate image_path s =
      (match Dataset.extract_features (dataset s) image_path with
       | [] => Ret tt
       | _ :: _ => Raise NetworkXError
       end, s).
Proof. intros s p H. by apply propagate_no_root. Qed.

Lemma propagate_before_fit_witness :
  propagate "a.jpg" (init demo.corpus 2 2) =
    (match Dataset.extract_features (dataset (init demo.corpus 2 2)) "a.jpg" with
     | [] => Ret tt
     | _ :: _ => Raise NetworkXError
     end, init demo.corpus 2 2).
Proof. apply (propagate_before_fit (init demo.corpus 2 2) "a.jpg"). reflexivity. Defined.

(** X9. [retrieve] on a new object, before [fit]: a query with a
    feature fails in [propagate]; a query without features reaches the
    scores and fails in [encode] on the empty graph, unless the dataset has
    no image, in which case the result is empty. The object is unchanged. *)
Theorem retrieve_before_fit :
  forall (d : Dataset.t) (n_branches depth : nat) (query_image_path : string),
    retrieve query_image_path (init d n_branches depth) =
      (match Dataset.extract_features d query_image_path, Dataset.all_images d with
       | _ :: _, _ => Raise NetworkXError
       | [], _ :: _ => Raise IndexError
       | [], [] => Ret []
       end, init d n_branches depth).
Proof.
  intros d n dep q. unfold retrieve, mbind at 1, M_bind at 1.
  rewrite propagate_no_root by reflexivity. cbn [dataset init].
  destruct (Dataset.extract_features d q) as [| f fs]; [| reflexivity].
  unfold mbind, M_bind, get, lift. cbn [dataset init].
  destruct (Dataset.all_images d) as [| img imgs]; reflexivity.
Qed.

Lemma weigh_nothing N l : forall s,
  (forall k files, nx.node (graph s) !! k = Some files -> files = nx.no_attrs) ->
  for_ l (weigh_node N) s = (Ret tt, s).
Proof.
  induction l as [| x l IH]; intros s H; [reflexivity |].
  cbn [for_]. unfold mbind, M_bind.
  assert (Hx : weigh_node N x s = (Ret tt, s)).
  { unfold weigh_node, mbind, M_bind, get.
    destruct (nx.node (graph s) !! x) as [a |] eqn:E; [| reflexivity].
    by rewrite (H x a E). }
  rewrite Hx. by apply IH.
Qed.

Lemma for_nothing {A} (l : list A) s : for_ l (fun _ => (mret tt : M unit)) s = (Ret tt, s).
Proof. induction l as [| x l IH]; [reflexivity |]. cbn [for_]. exact IH. Qed.

Lemma tfidf_no_attrs s i :
  (forall k files, nx.node (graph s) !! k = Some files -> files = nx.no_attrs) ->
  total_visits s i = 0%nat.
Proof.
  intros H. unfold total_visits, tfidf.
  assert (Hall : Forall (fun x : nat * nx.attrs => x.2 = nx.no_attrs) (nx.nodes_data (graph s))).
  { apply Forall_forall. intros [k a] Hin. unfold nx.nodes_data in Hin.
    apply list_elem_of_omap in Hin as (n & _ & Hn).
    destruct (nx.node (graph s) !! n) as [a' |] eqn:E; [| discriminate].
    simpl in Hn. injection Hn as -> ->. simpl. by apply (H k). }
  induction Hall as [| [k a] l Ha _ IH]; [reflexivity |].
  simpl in Ha. subst a. cbn [map sum_list sum_list_with]. rewrite IH. reflexivity.
Qed.

Lemma fitted_nodes_data kmeans P s : fitted kmeans P s -> nx.nodes_data (graph s) <> [].
Proof.
  intros Hf. destruct (proj2 (fitted_node _ _ s 0 Hf)) as [a Ha]; [lia |].
  destruct Hf as (Ho & _). unfold nx.nodes_data. rewrite Ho. cbn [seq omap list_omap].
  rewrite Ha. discriminate.
Qed.

(** X10. The constructor with [initialise]: [self.index()] runs with
    [parallel], so the counters of the object stay empty, no weight is set
    (every attribute dictionary is empty) and the object is the one that
    [fit] alone leaves. Every score on it is [nan]. *)
Theorem new_initialise_indexes_nothing :
  forall (kmeans : nat -> list feature -> list nat * list (list Q)) (P : feature -> Prop)
         (d : Dataset.t) (n_branches depth : nat),
    kmeans_ok kmeans n_branches P ->
    Forall P (extract_features None (init d n_branches depth)) ->
    new kmeans d n_branches depth true = (Ret tt, (fit kmeans (init d n_branches depth)).2) /\
    (forall k files,
       nx.node (graph (new kmeans d n_branches depth true).2) !! k = Some files ->
       files = nx.no_attrs) /\
    (forall a b, score (new kmeans d n_branches depth true).2 a b = Ret NaN).
Proof.
  intros kmeans P d n dep Hk HP.
  destruct (fit_fitted kmeans P d n dep Hk HP) as (Hr & Hf & _ & _ & Hattr).
  assert (Hnew : new kmeans d n dep true = (Ret tt, (fit kmeans (init d n dep)).2)).
  { unfold new, mbind, M_bind. destruct (fit kmeans (init d n dep)) as [o s] eqn:E.
    simpl in Hr, Hattr. subst o. unfold index, mbind, M_bind, get.
    rewrite for_nothing. by apply weigh_nothing. }
  rewrite Hnew. cbn [snd]. split; [reflexivity |]. split; [exact Hattr |].
  intros a b. apply score_unvisited.
  - by eapply fitted_nodes_data.
  - by apply tfidf_no_attrs.
Qed.

Lemma new_initialise_indexes_nothing_witness :
  new demo.kmeans demo.corpus 2 2 true = (Ret tt, (fit demo.kmeans (init demo.corpus 2 2)).2) /\
  (forall k files,
     nx.node (graph (new demo.kmeans demo.corpus 2 2 true).2) !! k = Some files ->
     files = nx.no_attrs) /\
  (forall a b, score (new demo.kmeans demo.corpus 2 2 true).2 a b = Ret NaN).
Proof.
  apply (new_initialise_indexes_nothing demo.kmeans (has_dim 1) demo.corpus 2 2).
  - apply demo_kmeans_ok. reflexivity.
  - vm_compute. repeat constructor.
Defined.

(** * The tree of a dataset that is too small *)

(** X11. With depth 0, or with fewer features in the dataset than
    branches, [fit] on a new object does not cluster: whatever the
    clustering primitive, it returns with the root as the only node, whose
    centre is the mean of all the entries, no edge and an empty [tree]; and
    every feature is then routed to the path that holds the root alone. *)
Theorem fit_without_clustering :
  forall (kmeans : nat -> list feature -> list nat * list (list Q))
         (d : Dataset.t) (n_branches depth : nat),
    depth = 0%nat \/
    (length (extract_features None (init d n_branches depth)) < n_branches)%nat ->
    fit kmeans (init d n_branches depth) =
      (Ret tt,
       {| dataset := d; n_branches := n_branches; depth := depth;
          tree := ∅;
          nodes := {[ 0%nat := Scalar (np_mean (extract_features None (init d n_branches depth))) ]};
          _current_index := 0;
          graph := {| nx.node_order := [0%nat];
                      nx.node := {[ 0%nat := nx.no_attrs ]};
                      nx.succ := {[ 0%nat := [] ]} |};
          fit_log := [(0%nat, extract_features None (init d n_branches depth), 0%nat)] |}) /\
    forall feature,
      propagate_feature (fit kmeans (init d n_branches depth)).2 feature 0 = Ret [0%nat].
Proof.
  intros kmeans d n dep H.
  assert (Hleaf : is_leaf_call (init d n dep)
                    (length (extract_features None (init d n dep))) 0 = true).
  { unfold is_leaf_call. cbn [depth n_branches init]. apply orb_true_iff.
    destruct H as [-> | H]; [left; reflexivity | right; by apply Nat.ltb_lt]. }
  assert (E : fit kmeans (init d n dep) =
      (Ret tt,
       {| dataset := d; n_branches := n; depth := dep;
          tree := ∅;
          nodes := {[ 0%nat := Scalar (np_mean (extract_features None (init d n dep))) ]};
          _current_index := 0;
          graph := {| nx.node_order := [0%nat];
                      nx.node := {[ 0%nat := nx.no_attrs ]};
                      nx.succ := {[ 0%nat := [] ]} |};
          fit_log := [(0%nat, extract_features None (init d n dep), 0%nat)] |})).
  { unfold fit, mbind at 1, M_bind at 1, get at 1. cbn [depth init fit_rec].
    unfold mbind at 1, M_bind at 1, get at 1. rewrite Hleaf. reflexivity. }
  split; [exact E |]. intros f. rewrite E. reflexivity.
Qed.

Lemma fit_without_clustering_witness :
  fit demo.kmeans (init demo.corpus 4 2) =
    (Ret tt,
     {| dataset := demo.corpus; n_branches := 4; depth := 2;
        tree := ∅;
        nodes := {[ 0%nat := Scalar (np_mean (extract_features None (init demo.corpus 4 2))) ]};
        _current_index := 0;
        graph := {| nx.node_order := [0%nat];
                    nx.node := {[ 0%nat := nx.no_attrs ]};
                    nx.succ := {[ 0%nat := [] ]} |};
        fit_log := [(0%nat, extract_features None (init demo.corpus 4 2), 0%nat)] |}) /\
  forall feature,
    propagate_feature (fit demo.kmeans (init demo.corpus 4 2)).2 feature 0 = Ret [0%nat].
Proof.
  apply (fit_without_clustering demo.kmeans demo.corpus 4 2). right. vm_compute. lia.
Defined.

(** * The length of a path *)

(** The descent from a node that [fit] entered at depth [d]: every level
    it goes down adds all the children of the node it leaves. *)
Lemma descend_levels kmeans dim s f :
  fitted kmeans (has_dim dim) s -> length f = dim ->
  forall fuel node path (fs : list feature) d,
    (node, fs, d) ∈ fit_log s ->
    (node <= _current_index s)%nat -> (_current_index s - node < fuel)%nat ->
    exists leaf extra levels,
      descend fuel s f node path = Ret (leaf, path ++ extra) /\
      length extra = (levels * n_branches s)%nat /\
      (d + levels <= depth s)%nat.
Proof.
  intros Hf Hlen. induction fuel as [| fuel IH]; intros node path fs d Hlog Hn Hfuel; [lia |].
  destruct (proj2 (fitted_succ _ _ s node Hf) Hn) as [cs Hcs].
  destruct (fitted_children _ _ s node cs Hf Hcs) as (fs' & d' & Hlog' & Hd & Hleaf & Hch).
  destruct (fitted_log_unique _ _ s node fs d fs' d' Hf Hlog Hlog') as [<- <-].
  destruct (decide (cs = [])) as [-> | Hne].
  { exists node, [], 0%nat. rewrite app_nil_r.
    split; [cbn [descend]; unfold nx.out_degree; by rewrite Hcs |].
    split; [reflexivity | lia]. }
  destruct (is_leaf_call s (length fs) d); [done |]. destruct Hleaf as [Hcslen _].
  assert (Hc : centres_match s f cs).
  { intros x Hx. destruct Hch as [_ Hch]. destruct (Hch x Hx) as (_ & (v & Hv & Hdim) & _).
    exists v. split; [done |]. unfold has_dim in Hdim. congruence. }
  rewrite (descend_step _ _ _ _ _ _ Hcs Hne).
  destruct (scan_first_nearest s f cs node path Hne Hc) as (i & best & Hrun & Hi & _).
  rewrite Hrun. cbn [mbind outcome_bind].
  assert (Hbest : best ∈ cs) by (eapply list_elem_of_lookup_2, Hi).
  destruct Hch as [_ Hch]. destruct (Hch best Hbest) as (Hr & _ & (fsb & Hlogb)).
  destruct (IH best (path ++ cs) fsb (S d) Hlogb) as (leaf & extra & levels & Hrun' & Hl & Hdep);
    [lia | lia |].
  exists leaf, (cs ++ extra), (S levels). rewrite app_assoc. split; [exact Hrun' |].
  split; [rewrite length_app, Hl, Hcslen; simpl; lia | lia].
Qed.



(** * The index built image by image *)

Lemma grown_visit_count i s t k j :
  grown_from i s t -> (visit_count s k j <= visit_count t k j)%nat.
Proof.
  intros Hg. unfold visit_count.
  destruct (nx.node (graph s) !! k) as [a |] eqn:Ea; [| lia].
  destruct (Hg k a Ea) as (a' & -> & _ & Ho & Hi).
  destruct (decide (j = i)) as [-> | Hj]; [exact Hi | by rewrite Ho].
Qed.

Lemma visit_count_le_total s k i :
  k ∈ nx.node_order (graph s) -> (visit_count s k i <= total_visits s i)%nat.
Proof.
  intros Hk. unfold visit_count, total_visits, tfidf.
  destruct (nx.node (graph s) !! k) as [a |] eqn:Ea; [| lia].
  apply elem_le_sum_list. rewrite map_fmap. apply list_elem_of_fmap.
  exists (k, a). split; [reflexivity |]. unfold nx.nodes_data.
  apply list_elem_of_omap. exists k. split; [exact Hk |]. by rewrite Ea.
Qed.

Lemma same_counts_visit_count P s t k j :
  P j -> same_counts P s t -> visit_count s k j = visit_count t k j.
Proof.
  intros Hj [_ H]. specialize (H k). unfold visit_count.
  destruct (nx.node (graph s) !! k), (nx.node (graph t) !! k); try done.
  by rewrite (H j Hj).
Qed.

Lemma set_weight_completes n x t :
  is_Some (nx.node (graph t) !! n) -> (set_weight n x t).1 = Ret tt.
Proof. intros [a Ha]. unfold set_weight, mbind, M_bind, get. by rewrite Ha. Qed.

Lemma weigh_node_completes N n t : (weigh_node N n t).1 = Ret tt.
Proof.
  unfold weigh_node, mbind, M_bind, get.
  destruct (nx.node (graph t) !! n) as [a |] eqn:E; [| reflexivity].
  destruct (nx.attrs_len a); [reflexivity |].
  change ((set_weight n (Log (Q_of_nat N / Q_of_nat (S n0))) t).1 = Ret tt).
  apply set_weight_completes. rewrite E. eauto.
Qed.

(** The loop of [index] over the nodes always completes, and changes no
    counter. *)
Lemma weigh_loop_run N l : forall t,
  (for_ l (weigh_node N) t).1 = Ret tt /\
  same_counts (fun _ => True) t (for_ l (weigh_node N) t).2 /\
  skeleton (for_ l (weigh_node N) t).2 = skeleton t.
Proof.
  intros t.
  destruct (for_complete (fun _ u => same_counts (fun _ => True) t u /\ skeleton u = skeleton t)
              l (weigh_node N) t) as (Hr & Hc & Hs).
  - split; [apply same_counts_refl | reflexivity].
  - intros done x rest u _ [Hc Hs]. split; [apply weigh_node_completes |].
    split; [by apply weigh_node_same_counts | by apply weigh_node_skeleton].
  - done.
Qed.

(** The loop of [index] over the images, without [parallel], in a state
    with the tree of [fit]: every image has left at the root one visit per
    feature, at least. *)
Lemma index_images_counts kmeans dim (images : list string) s :
  fitted kmeans (has_dim dim) s ->
  (forall image, image ∈ images ->
     Forall (has_dim dim) (Dataset.extract_features (dataset s) image)) ->
  (for_ images propagate s).1 = Ret tt /\
  skeleton (for_ images propagate s).2 = skeleton s /\
  forall image, image ∈ images ->
    (length (Dataset.extract_features (dataset s) image) <=
     visit_count (for_ images propagate s).2 0 (Dataset.get_image_id (dataset s) image))%nat.
Proof.
  intros Hf Hdim.
  pose (I := fun (done : list string) (t : CBIR) =>
    skeleton t = skeleton s /\
    forall image, image ∈ done ->
      (length (Dataset.extract_features (dataset s) image) <=
       visit_count t 0 (Dataset.get_image_id (dataset s) image))%nat).
  destruct (for_complete I images propagate s) as (Hr & Hsk & Hc); unfold I in *.
  - split; [reflexivity |]. intros image Hi. by apply elem_of_nil in Hi.
  - intros done x rest t Hsplit [Hsk Hc].
    assert (Hds : dataset t = dataset s) by (unfold skeleton in Hsk; congruence).
    assert (Hft : fitted kmeans (has_dim dim) t) by (by eapply fitted_skeleton).
    destruct (propagate_fitted _ dim t x Hft) as (Hr' & Hsk' & Hc').
    { rewrite Hds. apply Hdim. rewrite Hsplit. apply elem_of_app. right. apply list_elem_of_here. }
    split; [exact Hr' |]. split; [congruence |].
    intros image Hi. apply elem_of_app in Hi as [Hi | Hi].
    + etransitivity; [apply (Hc image Hi) |].
      apply (grown_visit_count (Dataset.get_image_id (dataset t) x) t). apply propagate_grown.
    + apply list_elem_of_singleton in Hi as ->. rewrite Hds in Hc'. rewrite Hc'. lia.
  - done.
Qed.



(** * The ranking of retrieve *)

Lemma fltb_Fin x y : fltb (Fin x) (Fin y) = false <-> (y <= x)%Q.
Proof.
  cbn [fltb]. rewrite Qge_alt. destruct (x ?= y)%Q; split; intros H; congruence.
Qed.

Lemma insert_sorted_perm x l : insert_sorted x l ≡ₚ x :: l.
Proof.
  induction l as [| y l IH]; cbn [insert_sorted]; [done |].
  destruct (fltb x.2 y.2); [done |]. rewrite IH. apply Permutation_swap.
Qed.

Lemma sorted_by_score_perm d : sorted_by_score d ≡ₚ d.
Proof.
  unfold sorted_by_score.
  assert (G : forall acc, foldl (fun acc x => insert_sorted x acc) acc d ≡ₚ acc ++ d).
  { induction d as [| x d IH]; intros acc; cbn [foldl]; [by rewrite app_nil_r |].
    rewrite IH, insert_sorted_perm. apply (Permutation_middle acc d x). }
  apply (G []).
Qed.

Lemma insert_sorted_sorted x l :
  is_finite x.2 -> Forall (fun e : string * npfloat => is_finite e.2) l ->
  StronglySorted score_le l -> StronglySorted score_le (insert_sorted x l).
Proof.
  intros [a Ha]. induction l as [| y l IH]; intros Hl Hs; cbn [insert_sorted].
  - constructor; constructor.
  - apply StronglySorted_inv in Hs as [Hs Hy]. apply Forall_cons in Hl as [[b Hb] Hl].
    destruct (fltb x.2 y.2) eqn:E.
    + assert (Hab : (a < b)%Q).
      { rewrite Ha, Hb in E. cbn [fltb] in E. apply Qlt_alt.
        destruct (a ?= b)%Q; congruence. }
      constructor; [by constructor |]. constructor.
      * unfold score_le. rewrite Ha, Hb. apply fltb_Fin. Lqa.lra.
      * apply Forall_forall. intros z Hz.
        pose proof (proj1 (Forall_forall _ _) Hy z Hz) as Hyz.
        destruct (proj1 (Forall_forall _ _) Hl z Hz) as [c Hc]. unfold score_le in *.
        rewrite Hc, Hb in Hyz. apply fltb_Fin in Hyz. rewrite Ha, Hc. apply fltb_Fin. Lqa.lra.
    + constructor; [by apply IH |]. rewrite insert_sorted_perm. constructor; [exact E | exact Hy].
Qed.

Lemma sorted_by_score_sorted d :
  Forall (fun e : string * npfloat => is_finite e.2) d ->
  StronglySorted score_le (sorted_by_score d).
Proof.
  unfold sorted_by_score. intros Hd.
  assert (G : forall acc, Forall (fun e : string * npfloat => is_finite e.2) acc ->
            StronglySorted score_le acc ->
            StronglySorted score_le (foldl (fun acc x => insert_sorted x acc) acc d)).
  { induction Hd as [| x d Hx Hd IH]; intros acc Hacc Hs; cbn [foldl]; [exact Hs |].
    apply IH; [| by apply insert_sorted_sorted].
    rewrite insert_sorted_perm. by constructor. }
  apply G; constructor.
Qed.

Lemma dict_set_keys k v d k' :
  k' ∈ map fst (dict_set k v d) <-> k' = k \/ k' ∈ map fst d.
Proof.
  induction d as [| [k1 v1] d IH]; cbn [dict_set map fst].
  - rewrite list_elem_of_singleton, elem_of_nil. tauto.
  - destruct (String.eqb_spec k k1) as [<- | Hne]; cbn [map fst].
    + rewrite !elem_of_cons. tauto.
    + rewrite !elem_of_cons, IH. tauto.
Qed.

Lemma dict_set_NoDup k v d : NoDup (map fst d) -> NoDup (map fst (dict_set k v d)).
Proof.
  induction d as [| [k1 v1] d IH]; cbn [dict_set map fst]; intros Hd.
  - apply NoDup_singleton.
  - apply NoDup_cons in Hd as [Hk1 Hd].
    destruct (String.eqb_spec k k1) as [<- | Hne]; cbn [map fst].
    + by apply NoDup_cons.
    + apply NoDup_cons. split; [| by apply IH].
      rewrite dict_set_keys. intros [-> | H]; done.
Qed.

Lemma dict_set_elem k v d e : e ∈ dict_set k v d -> e = (k, v) \/ e ∈ d.
Proof.
  induction d as [| [k1 v1] d IH]; cbn [dict_set].
  - rewrite list_elem_of_singleton. tauto.
  - destruct (String.eqb_spec k k1) as [<- | Hne].
    + rewrite !elem_of_cons. tauto.
    + rewrite !elem_of_cons. intros [-> | H]; [tauto |]. apply IH in H. tauto.
Qed.

(** The loop of [retrieve] over the images, when every score is
    returned and satisfies [Good]. *)
Lemma all_scores_run (Good : string -> npfloat -> Prop) t q : forall imgs acc,
  (forall img, img ∈ imgs ->
     exists v, score t img q = Ret v /\ Good (Dataset.get_image_id (dataset t) img) v) ->
  NoDup (map fst acc) -> (forall k v, (k, v) ∈ acc -> Good k v) ->
  exists r, all_scores t q imgs acc = Ret r /\ NoDup (map fst r) /\
    (forall k v, (k, v) ∈ r -> Good k v) /\
    (forall k, k ∈ map fst r <->
               k ∈ map fst acc \/ k ∈ map (Dataset.get_image_id (dataset t)) imgs).
Proof.
  induction imgs as [| img imgs IH]; intros acc Hs Hnd Hg; cbn [all_scores].
  - exists acc. repeat split; try done; [tauto |]. intros [H | H]; [done |].
    by apply elem_of_nil in H.
  - destruct (Hs img) as (v & Hv & Hgv); [apply list_elem_of_here |].
    rewrite Hv. cbn [mbind outcome_bind].
    destruct (IH (dict_set (Dataset.get_image_id (dataset t) img) v acc))
      as (r & Hr & Hnd' & Hg' & Hk).
    + intros i Hi. apply Hs. by apply list_elem_of_further.
    + by apply dict_set_NoDup.
    + intros k' v' Hin. apply dict_set_elem in Hin as [[= -> ->] | Hin]; auto.
    + exists r. split; [exact Hr |]. split; [exact Hnd' |]. split; [exact Hg' |].
      intros k. rewrite Hk, dict_set_keys. cbn [map]. rewrite elem_of_cons. tauto.
Qed.

Lemma retrieve_run q s t r :
  propagate q s = (Ret tt, t) ->
  all_scores t q (Dataset.all_images (dataset t)) [] = Ret r ->
  retrieve q s = (Ret (sorted_by_score r), t).
Proof.
  intros Hp Ha. unfold retrieve, mbind, M_bind, get, lift. rewrite Hp, Ha. reflexivity.
Qed.

Lemma retrieve_state q s : (retrieve q s).2 = (propagate q s).2.
Proof.
  unfold retrieve, mbind, M_bind, get, lift.
  destruct (propagate q s) as [[[] | e |] t]; try reflexivity.
  cbn [snd]. by destruct (all_scores t q (Dataset.all_images (dataset t)) []).
Qed.

Lemma sum_list_cons (x : nat) l : sum_list (x :: l) = (x + sum_list l)%nat.
Proof. reflexivity. Qed.

Lemma grown_total_visits i s t j :
  skeleton t = skeleton s -> grown_from i s t -> (total_visits s j <= total_visits t j)%nat.
Proof.
  intros Hsk Hg. unfold total_visits, tfidf, nx.nodes_data.
  assert (Ho : nx.node_order (graph t) = nx.node_order (graph s))
    by (unfold skeleton in Hsk; congruence).
  assert (Hd : dom (nx.node (graph t)) = dom (nx.node (graph s)))
    by (unfold skeleton in Hsk; congruence).
  rewrite Ho. clear Ho. induction (nx.node_order (graph s)) as [| n l IH]; [reflexivity |].
  cbn [omap list_omap].
  destruct (nx.node (graph s) !! n) as [a |] eqn:Ea.
  - destruct (Hg n a Ea) as (a' & Ha' & _ & Hother & Hi). rewrite Ha'.
    cbn [fmap option_fmap option_map map]. rewrite !sum_list_cons.
    assert (default 0%nat (nx.visits a !! j) <= default 0%nat (nx.visits a' !! j))%nat.
    { destruct (decide (j = i)) as [-> | Hj]; [exact Hi | by rewrite Hother]. }
    lia.
  - apply not_elem_of_dom in Ea. rewrite <- Hd in Ea. apply not_elem_of_dom in Ea.
    rewrite Ea. exact IH.
Qed.





(** * The weights of any object, and a graph with one node *)

Lemma weighed_not_listed N a : weighed N false a = a.
Proof. reflexivity. Qed.

Lemma weigh_node_weighed N x t (s : CBIR) (done : list nat) :
  x ∉ done ->
  (forall k, nx.node (graph t) !! k =
     weighed N (bool_decide (k ∈ done)) <$> nx.node (graph s) !! k) ->
  (weigh_node N x t).1 = Ret tt /\
  (forall k, nx.node (graph (weigh_node N x t).2) !! k =
     weighed N (bool_decide (k ∈ done ++ [x])) <$> nx.node (graph s) !! k).
Proof.
  intros Hx Hinv. split; [apply weigh_node_completes |].
  assert (Hother : forall k, k <> x -> bool_decide (k ∈ done ++ [x]) = bool_decide (k ∈ done)).
  { intros k Hk. apply bool_decide_ext. rewrite elem_of_app, list_elem_of_singleton. tauto. }
  assert (Hself : bool_decide (x ∈ done ++ [x]) = true).
  { apply bool_decide_eq_true. apply elem_of_app. right. apply list_elem_of_here. }
  unfold weigh_node, mbind, M_bind, get.
  pose proof (Hinv x) as Hxt. rewrite bool_decide_eq_false_2 in Hxt by done.
  destruct (nx.node (graph s) !! x) as [a |] eqn:Ea; simpl in Hxt; rewrite Hxt.
  - destruct (nx.attrs_len a) as [| m] eqn:Esz.
    + cbn [mret M_ret snd]. intros k. destruct (decide (k = x)) as [-> | Hk].
      * rewrite Hxt, Ea, Hself. cbn [fmap option_fmap option_map]. unfold weighed.
        by rewrite Esz.
      * rewrite Hinv, Hother by done. reflexivity.
    + unfold set_weight, mbind, M_bind, get. rewrite Hxt. cbn [modify fst snd].
      intros k. cbn [graph set_graph nx.set_node nx.node].
      destruct (decide (k = x)) as [-> | Hk].
      * rewrite lookup_insert_eq, Ea, Hself. cbn [fmap option_fmap option_map].
        unfold weighed. by rewrite Esz.
      * rewrite lookup_insert_ne, Hinv, Hother by done. reflexivity.
  - cbn [mret M_ret snd]. intros k. destruct (decide (k = x)) as [-> | Hk].
    + rewrite Hxt, Ea. reflexivity.
    + rewrite Hinv, Hother by done. reflexivity.
Qed.



(** X17. On a graph with a single node, as [fit] leaves it when the
    dataset is too small to cluster, any two images with a recorded visit
    have the score 0: every such image has the vector with the single
    entry 1. *)
Theorem single_node_scores_zero :
  forall (s : CBIR) (a b : string),
    length (nx.nodes_data (graph s)) = 1%nat ->
    (0 < total_visits s (Dataset.get_image_id (dataset s) a))%nat ->
    (0 < total_visits s (Dataset.get_image_id (dataset s) b))%nat ->
    exists x, score s a b = Ret (Fin x) /\ (x == 0)%Q.
Proof.
  intros s a b Hone Ha Hb. unfold score.
  destruct (tfidf_fractions s _ Ha) as (-> & Hla & _ & Hsa).
  destruct (tfidf_fractions s _ Hb) as (-> & Hlb & _ & Hsb).
  set (p := map _ (tfidf s (Dataset.get_image_id (dataset s) a))) in *.
  set (r := map _ (tfidf s (Dataset.get_image_id (dataset s) b))) in *.
  cbn [mbind outcome_bind]. unfold score_vectors.
  rewrite zip_with_fmul_Fin, np_sum_Fin. cbn [fmul fneg fsub fadd].
  eexists. split; [reflexivity |].
  rewrite Hone in Hla, Hlb.
  destruct p as [| pa [| ? ?]]; try discriminate. destruct r as [| ra [| ? ?]]; try discriminate.
  cbn [zip_with Qsum foldr] in *. Lqa.nra.
Qed.

Lemma single_node_scores_zero_witness :
  exists x,
    score (index false (fit demo.kmeans (init demo.corpus 4 2)).2).2 "a.jpg" "b.jpg" = Ret (Fin x) /\
    (x == 0)%Q.
Proof.
  apply (single_node_scores_zero (index false (fit demo.kmeans (init demo.corpus 4 2)).2).2
           "a.jpg" "b.jpg").
  - vm_compute. reflexivity.
  - vm_compute. lia.
  - vm_compute. lia.
Defined.

(** * The counters of the root, and the largest score *)

Lemma grown_visit_count_other i s t k j :
  skeleton t = skeleton s -> grown_from i s t -> j <> i ->
  visit_count t k j = visit_count s k j.
Proof.
  intros Hsk Hg Hj. unfold visit_count.
  destruct (nx.node (graph s) !! k) as [a |] eqn:Ea.
  - destruct (Hg k a Ea) as (a' & -> & _ & Ho & _). by rewrite Ho.
  - assert (Hd : dom (nx.node (graph t)) = dom (nx.node (graph s)))
      by (unfold skeleton in Hsk; congruence).
    apply not_elem_of_dom in Ea. rewrite <- Hd in Ea. apply not_elem_of_dom in Ea.
    by rewrite Ea.
Qed.



Lemma Qsum_nonneg_zero l :
  Forall (fun q => 0 <= q)%Q l -> (Qsum l == 0)%Q <-> Forall (fun q => q == 0)%Q l.
Proof.
  induction 1 as [| x l Hx Hl IH]; [split; [constructor | reflexivity] |].
  change (Qsum (x :: l)) with (x + Qsum l)%Q.
  assert (Hs : (0 <= Qsum l)%Q).
  { clear IH. induction Hl as [| y l Hy Hl IH]; [apply Qle_refl |].
    change (Qsum (y :: l)) with (y + Qsum l)%Q. Lqa.lra. }
  split.
  - intros H0. assert (x == 0)%Q by Lqa.lra. assert (Qsum l == 0)%Q by Lqa.lra.
    constructor; [done | by apply IH].
  - intros Hall. apply Forall_cons in Hall as [Hx0 Hall]. apply IH in Hall. Lqa.lra.
Qed.

Lemma zip_with_map_same {A} (g h : A -> Q) (l : list A) :
  zip_with Qmult (map g l) (map h l) = map (fun x => g x * h x)%Q l.
Proof. induction l as [| x l IH]; [reflexivity |]. simpl. by rewrite IH. Qed.

Lemma fraction_product_zero (c e : nat) (T U : Q) :
  (0 < T)%Q -> (0 < U)%Q ->
  ((Q_of_nat c / T) * (Q_of_nat e / U) == 0)%Q <-> c = 0%nat \/ e = 0%nat.
Proof.
  intros HT HU. split.
  - intros H. destruct c as [| c]; [by left |]. destruct e as [| e]; [by right |]. exfalso.
    assert (0 < Q_of_nat (S c) / T)%Q.
    { apply Qlt_shift_div_l; [exact HT |]. rewrite Qmult_0_l. unfold Q_of_nat, Qlt. simpl. lia. }
    assert (0 < Q_of_nat (S e) / U)%Q.
    { apply Qlt_shift_div_l; [exact HU |]. rewrite Qmult_0_l. unfold Q_of_nat, Qlt. simpl. lia. }
    assert (0 < (Q_of_nat (S c) / T) * (Q_of_nat (S e) / U))%Q by (by apply Qmult_lt_0_compat).
    Lqa.lra.
  - intros [-> | ->]; unfold Qdiv.
    + change (Q_of_nat 0) with 0%Q. rewrite !Qmult_0_l. reflexivity.
    + change (Q_of_nat 0) with 0%Q. rewrite Qmult_0_l, Qmult_0_r. reflexivity.
Qed.

(** X19. For two images with a recorded visit, the score is 2, its
    largest value, exactly when no node holds a visit of both. *)
Theorem score_is_2_iff_no_shared_node :
  forall (s : CBIR) (a b : string),
    (0 < total_visits s (Dataset.get_image_id (dataset s) a))%nat ->
    (0 < total_visits s (Dataset.get_image_id (dataset s) b))%nat ->
    exists x,
      score s a b = Ret (Fin x) /\
      ((x == 2)%Q <->
       forall k files, (k, files) ∈ nx.nodes_data (graph s) ->
         default 0%nat (nx.visits files !! Dataset.get_image_id (dataset s) a) = 0%nat \/
         default 0%nat (nx.visits files !! Dataset.get_image_id (dataset s) b) = 0%nat).
Proof.
  intros s a b Ha Hb. unfold score.
  destruct (tfidf_fractions s _ Ha) as (-> & _ & Hpa & _).
  destruct (tfidf_fractions s _ Hb) as (-> & _ & Hpb & _).
  cbn [mbind outcome_bind]. unfold score_vectors.
  rewrite zip_with_fmul_Fin, np_sum_Fin. cbn [fmul fneg fsub fadd].
  eexists. split; [reflexivity |].
  set (ia := Dataset.get_image_id (dataset s) a) in *.
  set (ib := Dataset.get_image_id (dataset s) b) in *.
  assert (HTa : (0 < norm_l1 (map Q_of_nat (tfidf s ia)))%Q).
  { rewrite norm_l1_nat. unfold total_visits in Ha. unfold Q_of_nat, Qlt. simpl. lia. }
  assert (HTb : (0 < norm_l1 (map Q_of_nat (tfidf s ib)))%Q).
  { rewrite norm_l1_nat. unfold total_visits in Hb. unfold Q_of_nat, Qlt. simpl. lia. }
  revert Hpa Hpb HTa HTb.
  generalize (norm_l1 (map Q_of_nat (tfidf s ia))) as Ta.
  generalize (norm_l1 (map Q_of_nat (tfidf s ib))) as Tb.
  intros Tb Ta Hpa Hpb HTa HTb. unfold tfidf in *. rewrite !map_map in *.
  rewrite zip_with_map_same.
  assert (Hnn : Forall (fun q => 0 <= q)%Q
            (map (fun x : nat * nx.attrs =>
                    (Q_of_nat (let '(_, files) := x in default 0%nat (nx.visits files !! ia)) / Ta) *
                    (Q_of_nat (let '(_, files) := x in default 0%nat (nx.visits files !! ib)) / Tb))%Q
               (nx.nodes_data (graph s)))).
  { rewrite map_fmap. apply Forall_fmap, Forall_forall. intros [k files] _. cbn beta iota.
    apply Qmult_le_0_compat; (apply Qle_shift_div_l; [done |]); rewrite Qmult_0_l;
      apply Q_of_nat_nonneg. }
  pose proof (Qsum_nonneg_zero _ Hnn) as Hz. clear Hnn.
  set (S := Qsum _) in *.
  assert (H2 : (2 + - (2 * S) == 2)%Q <-> (S == 0)%Q) by (split; intros; Lqa.lra).
  rewrite H2, Hz. rewrite map_fmap, Forall_fmap, Forall_forall. split.
  - intros H k files Hin. specialize (H (k, files) Hin). cbn beta iota in H.
    by apply (fraction_product_zero _ _ Ta Tb).
  - intros H [k files] Hin. cbn beta iota. apply (fraction_product_zero _ _ Ta Tb); [done | done |].
    by apply (H k files).
Qed.

Lemma score_is_2_iff_no_shared_node_witness :
  exists x,
    score demo.after_index "a.jpg" "b.jpg" = Ret (Fin x) /\
    ((x == 2)%Q <->
     forall k files, (k, files) ∈ nx.nodes_data (graph demo.after_index) ->
       default 0%nat (nx.visits files !! Dataset.get_image_id (dataset demo.after_index) "a.jpg") = 0%nat \/
       default 0%nat (nx.visits files !! Dataset.get_image_id (dataset demo.after_index) "b.jpg") = 0%nat).
Proof.
  apply (score_is_2_iff_no_shared_node demo.after_index "a.jpg" "b.jpg"); vm_compute; lia.
Defined.
